(** * Verification of usersim's task scheduling code

    Shallow embedding of [tasks/frequency.py] (the [Frequency] task, a
    stochastic trigger) and of [tasks/iebrowser.py] (the [IEManager]
    serialized executor shared by [IEBrowser] tasks).

    Finite Python floats are modelled as exact rationals [Q], with the
    infinities and [nan] as separate values where the configuration can
    hold them; Python ints as [Z]. *)

From Stdlib Require Import ZArith QArith Qminmax List String Bool Lia.
Import ListNotations.
Open Scope Z_scope.
Set Warnings "-register-all".

(* ------------------------------------------------------------------ *)
(** ** Python values, exceptions and builtins *)

Module Py.

(** A Python [float]: a finite value, [inf] ([Inf false]), [-inf]
    ([Inf true]) or [nan]. *)
Inductive pyfloat : Type :=
| Fin (q : Q)
| Inf (neg : bool)
| NaN.

(** The values a configuration dictionary (parsed from the configuration
    file) can hold. *)
Inductive pyval : Type :=
| PInt (z : Z)
| PBool (b : bool)
| PFloat (f : pyfloat)
| PStr (s : string)
| PNone
| PList (l : list pyval)
| PDict (d : list (string * pyval)).

(** A Python [dict] with string keys, keys unique, looked up by key. *)
Definition dict := list (string * pyval).

Fixpoint lookup (k : string) (d : dict) : option pyval :=
  match d with
  | [] => None
  | (k', v) :: d' => if String.eqb k k' then Some v else lookup k d'
  end.


(** The exceptions raised by the modelled code; messages of [ValueError]
    are abstracted to the name of the offending field. *)
Inductive exn : Type :=
| KeyError (msg : string)
| ValueError (msg : string)
| TypeError
| AttributeError
| OverflowError
| OSError (msg : string).

Definition is_KeyError (e : exn) : bool :=
  match e with KeyError _ => true | _ => false end.
Definition is_ValueError (e : exn) : bool :=
  match e with ValueError _ => true | _ => false end.

(** Python's [int(q)] on a float truncates toward zero. *)
Definition trunc (q : Q) : Z := Z.quot (Qnum q) (Zpos (Qden q)).

(** [float(z)] rounds an int to the nearest double; it raises
    [OverflowError] ("int too large to convert to float") when that
    rounds to [2^1024], i.e. from [2^1024 - 2^970] on. *)
Definition int_float_overflows (z : Z) : bool := 2 ^ 1024 - 2 ^ 970 <=? Z.abs z.

(** The comparison [f <= 0] on a float ([nan] compares false). *)
Definition float_le0 (f : pyfloat) : bool :=
  match f with Fin q => Qle_bool q 0 | Inf neg => neg | NaN => false end.

Section Builtins.
(** The builtins' parsers of numeric strings ([float("2.5")],
    [float("nan")], [float("1e400")] giving [inf], [int("7")]); [None]
    stands for the [ValueError] they raise. *)
Variable str_to_float : string -> option pyfloat.
Variable str_to_int : string -> option Z.

(** [float(v)] *)
Definition py_float (v : pyval) : exn + pyfloat :=
  match v with
  | PInt z => if int_float_overflows z then inl OverflowError else inr (Fin (inject_Z z))
  | PBool b => inr (Fin (if b then 1 else 0))%Q
  | PFloat f => inr f
  | PStr s =>
      match str_to_float s with
      | Some q => inr q
      | None => inl (ValueError "could not convert string to float")
      end
  | PNone | PList _ | PDict _ => inl TypeError
  end.

(** [int(v)] *)
Definition py_int (v : pyval) : exn + Z :=
  match v with
  | PInt z => inr z
  | PBool b => inr (if b then 1 else 0)
  | PFloat (Fin q) => inr (trunc q)
  | PFloat (Inf _) => inl OverflowError
  | PFloat NaN => inl (ValueError "cannot convert float NaN to integer")
  | PStr s =>
      match str_to_int s with
      | Some z => inr z
      | None => inl (ValueError "invalid literal for int()")
      end
  | PNone | PList _ | PDict _ => inl TypeError
  end.
End Builtins.

(** The comparison [x < y] on floats. *)
Definition Qltb (x y : Q) : bool := negb (Qle_bool y x).

(** Decimal rendering of an int, as [%d] does. *)
Fixpoint digits_rev (fuel : nat) (n : N) : string :=
  match fuel with
  | O => EmptyString
  | S fuel' =>
      let d := N.modulo n 10 in
      let c := Ascii.ascii_of_N (48 + d) in
      let rest := N.div n 10 in
      if N.eqb rest 0 then String c EmptyString
      else String.append (digits_rev fuel' rest) (String c EmptyString)
  end.

Definition fmt_d (z : Z) : string :=
  let body := digits_rev (S (N.to_nat (N.log2 (Z.to_N (Z.abs z))))) (Z.to_N (Z.abs z)) in
  if z <? 0 then String.append "-" body else body.

End Py.

(* ------------------------------------------------------------------ *)
(** ** [tasks/frequency.py]: the [Frequency] task *)

Module Frequency.
Import Py.

(** The instance attributes of a [Frequency] object. *)
Record Frequency : Type := mkFrequency {
  time_per_trigger : Q;   (* self._time_per_trigger *)
  reps : Z;               (* self._reps *)
  triggered : Z;          (* self._triggered *)
  task : pyval;           (* self._task *)
  last_check : Q          (* self._last_check *)
}.

(** [Frequency.__init__(freq, reps, task)]; [now] is [time.time()].
    [freq] is a finite float; [config] only builds an object from a
    positive one. At [freq = 0], where Python's [3600 / freq] raises
    [ZeroDivisionError], [Q]'s division gives 0; that input is outside
    what [config] lets through. *)
Definition init (freq : Q) (reps : Z) (task : pyval) (now : Q) : Frequency :=
  {| time_per_trigger := 3600 / freq;
     reps := reps;
     triggered := 0;
     task := task;
     last_check := now |}.

(** [trigger_probability = slept / self._time_per_trigger] where
    [slept = now - self._last_check]. *)
Definition trigger_probability (s : Frequency) (now : Q) : Q :=
  (now - last_check s) / time_per_trigger s.

(** [Frequency.__call__()]: [now] is [time.time()], [r] is
    [random.random()] (a draw in [[0, 1)]). Returns the new object state
    and the configuration handed to [api.new_task], if the trigger
    fired. [_time_per_trigger] is positive on every [Obj] that [config]
    builds; [Q]'s division by 0, which gives 0 where Python raises
    [ZeroDivisionError], is not reached from there. *)
Definition call (now r : Q) (s : Frequency) : Frequency * option pyval :=
  let slept := (now - last_check s)%Q in
  let s1 := {| time_per_trigger := time_per_trigger s; reps := reps s;
               triggered := triggered s; task := task s;
               last_check := now |} in
  let p := (slept / time_per_trigger s1)%Q in
  if Qltb r p then
    ({| time_per_trigger := time_per_trigger s1; reps := reps s1;
        triggered := triggered s1 + 1; task := task s1;
        last_check := last_check s1 |}, Some (task s1))
  else (s1, None).

(** Whether an invocation fired, i.e. called [api.new_task]. *)
Definition fired (res : Frequency * option pyval) : bool :=
  match snd res with Some _ => true | None => false end.

(** [Frequency.cleanup()] *)
Definition cleanup (s : Frequency) : Frequency := s.

(** [Frequency.stop()] *)
Definition stop (s : Frequency) : bool :=
  if (reps s =? 0) || (triggered s <? reps s) then false else true.

(** [Frequency.status()] *)
Definition status (s : Frequency) : string :=
  String.append "Triggered " (String.append (fmt_d (triggered s)) " times.").

(** The data-model invariant stated for the trigger state. *)
Definition trigger_inv (s : Frequency) : Prop :=
  reps s = 0 \/ triggered s <= reps s.

(** The orchestrator invoking the task repeatedly: [__call__] at each
    (time, draw) pair of [evs] in turn. *)
Fixpoint calls (evs : list (Q * Q)) (s : Frequency) : Frequency :=
  match evs with
  | [] => s
  | (now, r) :: evs' => calls evs' (fst (call now r s))
  end.

(** How many of those invocations fired. *)
Fixpoint fire_count (evs : list (Q * Q)) (s : Frequency) : Z :=
  match evs with
  | [] => 0
  | (now, r) :: evs' =>
      (if fired (call now r s) then 1 else 0) + fire_count evs' (fst (call now r s))
  end.

(** The sum of the [trigger_probability] values they computed. *)
Fixpoint prob_sum (evs : list (Q * Q)) (s : Frequency) : Q :=
  match evs with
  | [] => 0%Q
  | (now, r) :: evs' =>
      (trigger_probability s now + prob_sum evs' (fst (call now r s)))%Q
  end.

(** The object [cls(freq, reps, task)] returns. [Obj] is an object built
    from a finite [freq], whose invocations [call] models. For an
    infinite or [nan] [freq], [3600 / freq] makes [_time_per_trigger]
    [0.0] or [nan] ([ObjNonFinite]); [__call__] on such an object is not
    modelled ([slept / 0.0] raises [ZeroDivisionError]). *)
Inductive instance : Type :=
| Obj (s : Frequency)
| ObjNonFinite (time_per_trigger : pyfloat) (reps : Z) (task : pyval) (last_check : Q).

(** [cls(freq, reps, task)], i.e. [Frequency.__init__], on a float
    [freq]. *)
Definition construct (freq : pyfloat) (reps : Z) (task : pyval) (now : Q) : instance :=
  match freq with
  | Fin q => Obj (init q reps task now)
  | Inf _ => ObjNonFinite (Fin 0) reps task now
  | NaN => ObjNonFinite NaN reps task now
  end.

Section Config.
Variable str_to_float : string -> option pyfloat.
Variable str_to_int : string -> option Z.

Definition param_missing (field : string) : string :=
  String.append field " parameter missing from configuration".

(** [Frequency.config(conf_dict)]; [now] is the [time.time()] read by
    the constructor. *)
Definition config (conf_dict : dict) (now : Q) : exn + instance :=
  match lookup "frequency" conf_dict with
  | None => inl (KeyError (param_missing "frequency"))
  | Some freq0 =>
    match py_float str_to_float freq0 with
    | inl (ValueError _) => inl (ValueError "frequency")
    | inl e => inl e
    | inr freq =>
      if float_le0 freq then inl (ValueError "frequency") else
      match lookup "repetitions" conf_dict with
      | None => inl (KeyError (param_missing "repetitions"))
      | Some reps0 =>
        match py_int str_to_int reps0 with
        | inl (ValueError _) => inl (ValueError "repetitions")
        | inl e => inl e
        | inr reps =>
          if reps <? 0 then inl (ValueError "repetitions") else
          match lookup "task" conf_dict with
          | None => inl (KeyError (param_missing "task"))
          | Some task => inr (construct freq reps task now)
          end
        end
      end
    end
  end.
(** [frequency] is present and [float()] of it passes the [freq <= 0]
    test. *)
Definition frequency_ok (d : dict) : Prop :=
  exists v f, lookup "frequency" d = Some v /\
              py_float str_to_float v = inr f /\ float_le0 f = false.
End Config.



End Frequency.

(* ------------------------------------------------------------------ *)
(** ** [tasks/iebrowser.py]: [IEManager] and [IEBrowser]

    [IEManager] keeps its state in class attributes shared by every
    [IEBrowser] task: [_action_queue], [_ie] and [_persist]. The main
    UserSim thread calls [IEManager()], [get] and [close_browser];
    each consumer thread runs [_action_executor]. The model is an
    interleaving semantics: one atomic step per Python statement of the
    consumer loop, the client thread's calls as atomic steps except
    [__new__], whose three statements (create the queue, start the
    thread, put the start action) are separate steps, and a log of the
    observable events, newest first. *)

Module IEManager.
Import Py.

(** The callables put on the action queue. *)
Inductive action : Type :=
| StartIE                   (* cls._start_ie *)
| VisitSite (site : string). (* functools.partial(cls._visit_site, site) *)

(** A queue entry [(action, task_id, delay)]. *)
Record request : Type := mkRequest {
  act : action;
  task_id : Z;
  delay : Q
}.

(** [(cls._start_ie, 0, 10)], queued by [__new__]. *)
Definition start_req : request := mkRequest StartIE 0 10.

Inductive outcome : Type := Ok | Raised.

(** Observable events. *)
Inductive event : Type :=
| EFresh                          (* cls._action_queue = queue.Queue() *)
| EPut (r : request)              (* cls._action_queue.put(r) *)
| ERaise (e : exn)                (* an exception reaches the client caller *)
| EExec (r : request) (o : outcome) (* action() ran, returned or raised *)
| EFeedback (tid : Z)             (* api.add_feedback(task_id, traceback) *)
| EExit                           (* the consumer left its while loop *)
| ERelease                        (* cls._ie.Quit(), or the kill fallback *)
| EWorkerDied                     (* the consumer found the queue None:
                                     AttributeError ends the thread *)
| ESleepRaised.                   (* time.sleep(delay) raised ValueError on a
                                     negative delay: uncaught, it ends the
                                     thread *)

(** Program counter of a consumer thread running [_action_executor]. *)
Inductive wpc : Type :=
| WTest              (* evaluate cls._persist *)
| WTestQ             (* persist is false: evaluate not queue.empty() *)
| WGet               (* cls._action_queue.get(timeout=1) *)
| WExec (r : request)  (* action(), add_feedback on failure, sleep(delay) *)
| WReset1            (* cls._action_queue = None *)
| WReset2            (* cls._persist = True *)
| WQuit              (* cls._ie.Quit(), falling back to killing iexplore *)
| WClear             (* finally: cls._ie = None *)
| WDone.             (* the thread has ended *)

(** Program counter of the client (main UserSim) thread inside
    [IEManager.__new__]. *)
Inductive cpc : Type :=
| CIdle              (* not inside __new__ *)
| CNewSpawn          (* queue created; next: start the consumer thread *)
| CNewPut.           (* thread started; next: put the start action *)

Record state : Type := mkState {
  queue : option (list request);  (* cls._action_queue, FIFO contents *)
  persist : bool;                 (* cls._persist *)
  ie : bool;                      (* cls._ie is not None *)
  client : cpc;
  workers : list wpc;             (* every consumer thread ever started *)
  log : list event                (* newest first *)
}.

(** The class attributes at import time. *)
Definition init : state :=
  {| queue := None; persist := true; ie := false; client := CIdle;
     workers := []; log := [] |}.

Definition set_queue (q : option (list request)) (st : state) : state :=
  {| queue := q; persist := persist st; ie := ie st; client := client st;
     workers := workers st; log := log st |}.
Definition set_persist (b : bool) (st : state) : state :=
  {| queue := queue st; persist := b; ie := ie st; client := client st;
     workers := workers st; log := log st |}.
Definition set_ie (b : bool) (st : state) : state :=
  {| queue := queue st; persist := persist st; ie := b; client := client st;
     workers := workers st; log := log st |}.
Definition set_client (c : cpc) (st : state) : state :=
  {| queue := queue st; persist := persist st; ie := ie st; client := c;
     workers := workers st; log := log st |}.
Definition set_workers (ws : list wpc) (st : state) : state :=
  {| queue := queue st; persist := persist st; ie := ie st;
     client := client st; workers := ws; log := log st |}.
Definition emit (e : event) (st : state) : state :=
  {| queue := queue st; persist := persist st; ie := ie st;
     client := client st; workers := workers st; log := e :: log st |}.

(** What running one action does to [cls._ie] and whether it raises.
    [_start_ie] may fail before or after storing the COM object (at
    [Visible = True]); [_visit_site] raises [AttributeError] when
    [cls._ie] is [None], and otherwise may succeed or raise (COM errors,
    a terminated process). *)
Inductive run_action : action -> bool -> outcome -> bool -> Prop :=
| run_start_ok ie : run_action StartIE ie Ok true
| run_start_fail ie : run_action StartIE ie Raised ie
| run_start_fail_late ie : run_action StartIE ie Raised true
| run_visit_ok s : run_action (VisitSite s) true Ok true
| run_visit_fail s : run_action (VisitSite s) true Raised true
| run_visit_none s : run_action (VisitSite s) false Raised false.

(** One statement of [_action_executor]. The timeout of
    [get(timeout=1)] can expire only when the queue is empty; a blocked
    [get] is a thread that does not step. Running a request is one step:
    [action()], [api.add_feedback] if it raised, then
    [time.sleep(delay)], which raises [ValueError] for a negative delay;
    that exception is outside the inner [try], so it ends the thread
    without the teardown after the loop. *)
Inductive wstep : wpc -> state -> wpc -> state -> Prop :=
| ws_test_true st :
    persist st = true -> wstep WTest st WGet st
| ws_test_false st :
    persist st = false -> wstep WTest st WTestQ st
| ws_testq_nonempty st r q :
    queue st = Some (r :: q) -> wstep WTestQ st WGet st
| ws_testq_empty st :
    queue st = Some [] -> wstep WTestQ st WReset1 (emit EExit st)
| ws_testq_none st :
    queue st = None -> wstep WTestQ st WDone (emit EWorkerDied st)
| ws_get st r q :
    queue st = Some (r :: q) -> wstep WGet st (WExec r) (set_queue (Some q) st)
| ws_get_timeout st :
    queue st = Some [] -> wstep WGet st WTest st
| ws_get_none st :
    queue st = None -> wstep WGet st WDone (emit EWorkerDied st)
| ws_exec_ok st r ie' :
    run_action (act r) (ie st) Ok ie' -> (0 <= delay r)%Q ->
    wstep (WExec r) st WTest (emit (EExec r Ok) (set_ie ie' st))
| ws_exec_raise st r ie' :
    run_action (act r) (ie st) Raised ie' -> (0 <= delay r)%Q ->
    wstep (WExec r) st WTest
      (emit (EFeedback (task_id r)) (emit (EExec r Raised) (set_ie ie' st)))
| ws_exec_ok_sleep_raise st r ie' :
    run_action (act r) (ie st) Ok ie' -> (delay r < 0)%Q ->
    wstep (WExec r) st WDone
      (emit ESleepRaised (emit (EExec r Ok) (set_ie ie' st)))
| ws_exec_raise_sleep_raise st r ie' :
    run_action (act r) (ie st) Raised ie' -> (delay r < 0)%Q ->
    wstep (WExec r) st WDone
      (emit ESleepRaised (emit (EFeedback (task_id r))
                            (emit (EExec r Raised) (set_ie ie' st))))
| ws_reset1 st : wstep WReset1 st WReset2 (set_queue None st)
| ws_reset2 st : wstep WReset2 st WQuit (set_persist true st)
| ws_quit st : wstep WQuit st WClear (emit ERelease st)
| ws_clear st : wstep WClear st WDone (set_ie false st).

(** [IEManager()], i.e. [IEManager.__new__]: its first statement. *)
Definition new_manager (st : state) : state :=
  match queue st with
  | None => emit EFresh (set_client CNewSpawn (set_queue (Some []) st))
  | Some _ => st
  end.

(** The rest of [__new__]: [t.start()], then
    [cls._action_queue.put((cls._start_ie, 0, 10))]. *)
Definition client_cont (st : state) : option state :=
  match client st with
  | CIdle => None
  | CNewSpawn =>
      Some (set_client CNewPut (set_workers (workers st ++ [WTest]) st))
  | CNewPut =>
      match queue st with
      | Some q => Some (emit (EPut start_req)
                          (set_client CIdle (set_queue (Some (q ++ [start_req])) st)))
      | None => Some (emit (ERaise AttributeError) (set_client CIdle st))
      end
  end.

(** [IEManager.get(site, task_id, delay)] *)
Definition get (site : string) (tid : Z) (d : Q) (st : state) : state :=
  let r := mkRequest (VisitSite site) tid d in
  match queue st with
  | Some q => emit (EPut r) (set_queue (Some (q ++ [r])) st)
  | None => emit (ERaise AttributeError) st
  end.

(** [IEManager.close_browser()] *)
Definition close_browser (st : state) : state := set_persist false st.

(** [IEManager.status()]; [busy] is [cls._ie.Busy], read only when
    [cls._ie] is set. *)
Definition ie_status (st : state) (busy : bool) : string :=
  if negb (ie st) then "IE has not yet been fully started."
  else if busy then "IE reports that it is loading a web page."
  else "IE is idle.".

(** Modelled from the spec: [Browser.__init__] ([tasks/browser.py], not
    part of the sources). It stores the task configuration (the candidate
    sites) on the instance and does not touch [IEManager]'s class
    state. *)
Definition browser_init (config : dict) : exn + dict := inr config.

(** [IEBrowser.__init__(config)] on a machine whose [platform.system()]
    is [platform]: the effect on the shared state. *)
Definition iebrowser_init (platform : string) (config : dict) (st : state)
  : state :=
  if negb (String.eqb platform "Windows") then
    emit (ERaise (OSError "This task is only compatible with Windows.")) st
  else
    match browser_init config with
    | inl e => emit (ERaise e) st
    | inr _ =>
        match lookup "close_browser" config with
        | None => emit (ERaise (KeyError "close_browser")) st
        | Some _ => new_manager st
        end
    end.

(** The client thread's calls into [IEManager]. *)
Inductive call : Type :=
| CallNew
| CallGet (site : string) (tid : Z) (d : Q)
| CallClose
| CallConstruct (platform : string) (config : dict).

Definition client_call (c : call) (st : state) : state :=
  match c with
  | CallNew => new_manager st
  | CallGet site tid d => get site tid d st
  | CallClose => close_browser st
  | CallConstruct platform config => iebrowser_init platform config st
  end.

Inductive step : state -> state -> Prop :=
| step_call c st :
    client st = CIdle -> step st (client_call c st)
| step_cont st st' :
    client_cont st = Some st' -> step st st'
| step_worker st ws1 pc ws2 pc' st' :
    workers st = ws1 ++ pc :: ws2 ->
    wstep pc st pc' st' ->
    step st (set_workers (ws1 ++ pc' :: ws2) st').

Inductive steps : state -> state -> Prop :=
| steps_refl st : steps st st
| steps_trans st1 st2 st3 : step st1 st2 -> steps st2 st3 -> steps st1 st3.

Definition reachable (st : state) : Prop := steps init st.

End IEManager.

(* ------------------------------------------------------------------ *)
(** ** Observations on executor states and logs *)

Module IETrace.
Import Py IEManager.

(** Consumer threads inside the [while] loop. *)
Definition is_loop (pc : wpc) : bool :=
  match pc with WTest | WTestQ | WGet | WExec _ => true | _ => false end.

Definition is_reset1 (pc : wpc) : bool :=
  match pc with WReset1 => true | _ => false end.

(** Consumer threads that still own [cls._action_queue]: in the loop, or
    just out of it and about to set it to [None]. *)
Definition is_owner (pc : wpc) : bool := is_loop pc || is_reset1 pc.

(** Consumer threads running an action. *)
Definition is_exec (pc : wpc) : bool :=
  match pc with WExec _ => true | _ => false end.

Fixpoint cnt (f : wpc -> bool) (l : list wpc) : nat :=
  match l with
  | [] => 0
  | x :: l' => (if f x then 1 else 0) + cnt f l'
  end%nat.

(** Requests taken off the queue and not yet run. *)
Definition inflight (ws : list wpc) : list request :=
  flat_map (fun pc => match pc with WExec r => [r] | _ => [] end) ws.

(** Requests put, and requests run, in a newest-first log. *)
Fixpoint puts (l : list event) : list request :=
  match l with
  | [] => []
  | EPut r :: l' => r :: puts l'
  | _ :: l' => puts l'
  end.

Fixpoint execs (l : list event) : list request :=
  match l with
  | [] => []
  | EExec r _ :: l' => r :: execs l'
  | _ :: l' => execs l'
  end.

Fixpoint feedbacks (l : list event) : list Z :=
  match l with
  | [] => []
  | EFeedback t :: l' => t :: feedbacks l'
  | _ :: l' => feedbacks l'
  end.

Definition is_exit (e : event) : bool :=
  match e with EExit => true | _ => false end.
Definition is_fresh (e : event) : bool :=
  match e with EFresh => true | _ => false end.

Definition has_exit (l : list event) : bool := existsb is_exit l.

(** The part of a newest-first log older than its newest [EExit]. *)
Fixpoint before_exit (l : list event) : list event :=
  match l with
  | [] => []
  | e :: l' => if is_exit e then l' else before_exit l'
  end.

(** The events since the last [EFresh]: the life of the current queue
    object. *)
Fixpoint cur_seg (l : list event) : list event :=
  match l with
  | [] => []
  | e :: l' => if is_fresh e then [] else e :: cur_seg l'
  end.

(** The logs of the earlier queue objects, newest first. *)
Fixpoint old_segs (l : list event) : list (list event) :=
  match l with
  | [] => []
  | e :: l' => if is_fresh e then cur_seg l' :: old_segs l' else old_segs l'
  end.

(** One log per queue object ever created ("generation" of the
    executor), the current one first. *)
Definition segments (l : list event) : list (list event) :=
  cur_seg l :: old_segs l.

Definition first_is_start (rs : list request) : Prop :=
  match rs with [] => True | r :: _ => r = start_req end.

(** Within one generation, in chronological order, the requests run are
    a prefix of the requests put, and the first request put is the start
    action. *)
Definition fifo_seg (s : list event) : Prop :=
  (exists rest, rev (puts s) = rev (execs s) ++ rest) /\
  first_is_start (rev (puts s)).

(** A finished generation: either its consumer left the loop after
    running, in order, everything put before that moment, or nothing was
    ever put or run; and its first request is the start action. *)
Definition closed_seg (s : list event) : Prop :=
  ((has_exit s = true /\ execs s = puts (before_exit s)) \/
   (puts s = [] /\ execs s = [])) /\
  first_is_start (rev (puts s)).

Definition spawn_bit (c : cpc) : nat :=
  match c with CNewSpawn => 1 | _ => 0 end%nat.

(** The invariant of reachable executor states. *)
Record Inv (st : state) : Prop := {
  inv_own : (cnt is_owner (workers st) + spawn_bit (client st) <= 1)%nat;
  inv_none : queue st = None ->
             cnt is_owner (workers st) = 0%nat /\ client st <> CNewSpawn;
  inv_newputs : client st <> CIdle -> puts (cur_seg (log st)) = [];
  inv_spawn_open : client st = CNewSpawn -> has_exit (cur_seg (log st)) = false;
  inv_open : has_exit (cur_seg (log st)) = false ->
    (exists q, queue st = Some q /\
       rev (puts (cur_seg (log st))) =
       rev (execs (cur_seg (log st))) ++ inflight (workers st) ++ q) \/
    (queue st = None /\ puts (cur_seg (log st)) = [] /\
     execs (cur_seg (log st)) = []);
  inv_exit : has_exit (cur_seg (log st)) = true ->
    cnt is_loop (workers st) = 0%nat /\
    execs (cur_seg (log st)) = puts (before_exit (cur_seg (log st)));
  inv_reset1 : cnt is_reset1 (workers st) <> 0%nat ->
               has_exit (cur_seg (log st)) = true;
  inv_start : first_is_start (rev (puts (cur_seg (log st))));
  inv_idle : client st = CIdle -> queue st <> None ->
             puts (cur_seg (log st)) <> [];
  inv_old : Forall closed_seg (old_segs (log st))
}.

(** Concrete executor states used below. A request a task submits with
    [IEManager.get('a', 1)]. *)
Definition req_a : request := mkRequest (VisitSite "a") 1 0.

(** The consumer has seen [_persist] false and an empty queue and left
    its loop (it is about to run [cls._action_queue = None]); in between,
    the main thread has called [IEManager.get('a', 1)] on the old queue. *)
Definition race_mid : state :=
  {| queue := Some [req_a]; persist := false; ie := true; client := CIdle;
     workers := [WReset1];
     log := [EPut req_a; EExit; EExec start_req Ok; EPut start_req; EFresh] |}.

(** The same run after the consumer has finished its teardown. *)
Definition race_fin : state :=
  {| queue := None; persist := true; ie := false; client := CIdle;
     workers := [WDone];
     log := [ERelease; EPut req_a; EExit; EExec start_req Ok; EPut start_req;
             EFresh] |}.

(** An executor torn down after [close_browser()] with nothing queued. *)
Definition teardown_done : state :=
  {| queue := None; persist := true; ie := false; client := CIdle;
     workers := [WDone];
     log := [ERelease; EExit; EExec start_req Ok; EPut start_req; EFresh] |}.

(** The consumer has taken the start action off a fresh queue. *)
Definition start_popped : state :=
  {| queue := Some []; persist := true; ie := false; client := CIdle;
     workers := [WExec start_req];
     log := [EPut start_req; EFresh] |}.

(** A request a task submits with [IEManager.get('b', 2)]. *)
Definition req_b : request := mkRequest (VisitSite "b") 2 0.

(** [IEManager()], then [get('a', 1)] and [get('b', 2)]; the consumer
    has run the start action and taken [a] off the queue; [b] is queued
    behind it. *)
Definition a_popped : state :=
  {| queue := Some [req_b]; persist := true; ie := true; client := CIdle;
     workers := [WExec req_a];
     log := [EExec start_req Ok; EPut req_b; EPut req_a; EPut start_req; EFresh] |}.

(** The same run after [a] has raised and been reported. *)
Definition a_failed : state :=
  {| queue := Some [req_b]; persist := true; ie := true; client := CIdle;
     workers := [WTest];
     log := [EFeedback 1; EExec req_a Raised; EExec start_req Ok; EPut req_b;
             EPut req_a; EPut start_req; EFresh] |}.

(** Then [close_browser()] is called; the consumer runs [b] and leaves
    its loop on the empty queue. *)
Definition a_drained : state :=
  {| queue := Some []; persist := false; ie := true; client := CIdle;
     workers := [WReset1];
     log := [EExit; EExec req_b Ok; EFeedback 1; EExec req_a Raised;
             EExec start_req Ok; EPut req_b; EPut req_a; EPut start_req; EFresh] |}.

(** The task ids of the failed runs in a log, newest first. *)
Fixpoint raised_ids (l : list event) : list Z :=
  match l with
  | [] => []
  | EExec r Raised :: l' => task_id r :: raised_ids l'
  | _ :: l' => raised_ids l'
  end.

(** How many queue objects [IEManager()] has created. *)
Definition count_fresh (l : list event) : nat := List.length (filter is_fresh l).

(** An old consumer tears down while [IEManager()] builds a new executor:
    the new consumer has run its start action, the old one then ran
    [cls._ie.Quit()] and [cls._ie = None], and the new consumer has
    then run [get('b', 2)]'s visit. *)
Definition clobber_fin : state :=
  {| queue := Some []; persist := true; ie := false; client := CIdle;
     workers := [WDone; WTest];
     log := [EFeedback 2; EExec req_b Raised; EPut req_b; ERelease;
             EExec start_req Ok; EPut start_req; EFresh;
             EExit; EExec start_req Ok; EPut start_req; EFresh] |}.

(** A request a task submits with [IEManager.get('a', 1, -1)]. *)
Definition req_neg : request := mkRequest (VisitSite "a") 1 (-1).

(** [IEManager()], then [get('a', 1, -1)]: the consumer has run the start
    action and [a], and [time.sleep(-1)] has raised and ended it. *)
Definition sleep_dead : state :=
  {| queue := Some []; persist := true; ie := true; client := CIdle;
     workers := [WDone];
     log := [ESleepRaised; EExec req_neg Ok; EExec start_req Ok; EPut req_neg;
             EPut start_req; EFresh] |}.

(** Then [get('b', 2)] and [IEManager()] (another [IEBrowser] task). *)
Definition sleep_dead_later : state :=
  {| queue := Some [req_b]; persist := true; ie := true; client := CIdle;
     workers := [WDone];
     log := [EPut req_b; ESleepRaised; EExec req_neg Ok; EExec start_req Ok;
             EPut req_neg; EPut start_req; EFresh] |}.

End IETrace.

(* ================================================================== *)
(** * Properties of [Frequency] *)

Module FrequencyProofs.
Import Py Frequency.

Example stop_fresh : stop (init 3600 5 PNone 0) = false.
Proof. reflexivity. Qed.

Example status_example :
  status (fst (call 2 0 (init 3600 5 PNone 0))) = "Triggered 1 times."%string.
Proof. reflexivity. Qed.

(** C1: [stop()] is true exactly when the limit is non-zero and has been
    reached; with [repetitions = 5] it is false below 5 firings and true
    at 5. *)
Theorem stop_spec :
  (forall s : Frequency, stop s = true <-> reps s <> 0 /\ reps s <= triggered s) /\
  (forall s : Frequency, reps s = 5 ->
     (triggered s < 5 -> stop s = false) /\ (triggered s = 5 -> stop s = true)).
Proof.
  split.
  - intros s. unfold stop.
    destruct (reps s =? 0) eqn:E0; destruct (triggered s <? reps s) eqn:E1;
      simpl; rewrite ?Z.eqb_eq, ?Z.eqb_neq, ?Z.ltb_lt, ?Z.ltb_ge in *;
      split; intros H; try discriminate; try lia; auto.
  - intros s Hr. unfold stop. rewrite Hr. split; intros H.
    + replace (triggered s <? 5) with true by (symmetry; apply Z.ltb_lt; lia).
      reflexivity.
    + rewrite H. reflexivity.
Qed.

Local Open Scope Q_scope.

(** C2, the claim as stated fails: with [frequency = 3600] and two
    seconds elapsed the computed probability is 2, not clamped to 1. *)
Lemma probability_not_clamped :
  (trigger_probability (init 3600 0 PNone 0) 2 == 2) /\
  ~ (trigger_probability (init 3600 0 PNone 0) 2 <= 1).
Proof.
  split.
  - vm_compute. reflexivity.
  - vm_compute. intros H. apply H. reflexivity.
Qed.

(** C2, amended: [_time_per_trigger] is [3600 / freq]; the computed
    probability is [elapsed / _time_per_trigger], i.e.
    [elapsed * freq / 3600], with no clamping; the invocation fires
    exactly when the draw is below it, which for a draw in [[0, 1)] is
    the same as being below [min p 1]; with [frequency = 3600] and one
    second elapsed the probability is exactly 1. *)
Theorem fire_probability :
  (forall (freq : Q) (reps : Z) (task : pyval) (t0 : Q),
     time_per_trigger (init freq reps task t0) = 3600 / freq) /\
  (forall (freq : Q) (reps : Z) (task : pyval) (t0 now : Q), ~ freq == 0 ->
     (trigger_probability (init freq reps task t0) now == (now - t0) * freq / 3600)) /\
  (forall (s : Frequency) (now r : Q),
     fired (call now r s) = true <-> r < trigger_probability s now) /\
  (forall (s : Frequency) (now r : Q), 0 <= r < 1 ->
     (fired (call now r s) = true <-> r < Qmin (trigger_probability s now) 1)) /\
  (forall (reps : Z) (task : pyval) (t0 : Q),
     (trigger_probability (init 3600 reps task t0) (t0 + 1) == 1)).
Proof.
  assert (Hfire : forall (s : Frequency) (now r : Q),
             fired (call now r s) = true <-> r < trigger_probability s now).
  { intros s now r. unfold fired, call, trigger_probability, Qltb. simpl.
    destruct (Qle_bool ((now - last_check s) / time_per_trigger s) r) eqn:E;
      simpl; split; intros H; try discriminate; auto.
    - apply Qle_bool_iff in E. exfalso. apply (Qlt_not_le _ _ H). exact E.
    - apply Qnot_le_lt. intros Hle. apply Qle_bool_iff in Hle.
      rewrite Hle in E. discriminate. }
  split; [|split; [|split; [|split]]].
  - reflexivity.
  - intros freq reps task t0 now Hf. unfold trigger_probability, init. simpl.
    field. exact Hf.
  - exact Hfire.
  - intros s now r [_ Hr1]. rewrite Hfire. rewrite Q.min_glb_lt_iff. tauto.
  - intros reps task t0. unfold trigger_probability, init. simpl.
    field.
Qed.

(** C3, the claim as stated fails: [__call__] does not consult
    [stop()], so one more invocation after the limit is reached can fire
    again and push the count past [repetitions]. *)
Lemma inv_broken_past_limit :
  let s1 := fst (call 1 0 (init 3600 1 PNone 0)) in
  trigger_inv s1 /\ stop s1 = true /\ ~ trigger_inv (fst (call 2 0 s1)).
Proof.
  cbv. split; [right; discriminate | split; [reflexivity |]].
  intros [H | H]; [discriminate | apply H; reflexivity].
Qed.

(** What a successful [config] call has read and built. *)
Lemma config_success sf si d now i :
  config sf si d now = inr i ->
  exists vf f vr z t,
    lookup "frequency" d = Some vf /\ py_float sf vf = inr f /\ float_le0 f = false /\
    lookup "repetitions" d = Some vr /\ py_int si vr = inr z /\ (0 <= z)%Z /\
    lookup "task" d = Some t /\ i = construct f z t now.
Proof.
  unfold config.
  destruct (lookup "frequency" d) as [vf|]; [|discriminate].
  destruct (py_float sf vf) as [[]|f] eqn:Hf; try discriminate.
  destruct (float_le0 f) eqn:Hle; [discriminate|].
  destruct (lookup "repetitions" d) as [vr|]; [|discriminate].
  destruct (py_int si vr) as [[]|z] eqn:Hz; try discriminate.
  destruct (z <? 0)%Z eqn:Ez; [discriminate|].
  destruct (lookup "task" d) as [t|]; [|discriminate].
  intros H. injection H as <-. apply Z.ltb_ge in Ez.
  exists vf, f, vr, z, t. repeat split; assumption.
Qed.

(** C3, amended: the invariant holds for every constructed instance
    (with [reps >= 0], as [config] ensures, also for the objects it
    builds from an infinite or [nan] frequency), and is preserved by an
    invocation made while [stop()] is false (the orchestrator retires the
    task once it is true) and by [cleanup]; [stop] and [status] do not
    change the state. *)
Theorem trigger_inv_guarded :
  (forall (freq : Q) (reps : Z) (task : pyval) (now : Q),
     (0 <= reps)%Z -> trigger_inv (init freq reps task now)) /\
  (forall str_to_float str_to_int (d : dict) (now : Q) (s : Frequency),
     config str_to_float str_to_int d now = inr (Obj s) -> trigger_inv s) /\
  (forall str_to_float str_to_int (d : dict) (now : Q) tpt reps task c,
     config str_to_float str_to_int d now = inr (ObjNonFinite tpt reps task c) ->
     (0 <= reps)%Z) /\
  (forall (s : Frequency) (now r : Q),
     trigger_inv s -> stop s = false -> trigger_inv (fst (call now r s))) /\
  (forall s : Frequency, trigger_inv s -> trigger_inv (cleanup s)).
Proof.
  assert (Hinit : forall (freq : Q) (reps : Z) (task : pyval) (now : Q),
             (0 <= reps)%Z -> trigger_inv (init freq reps task now)).
  { intros freq reps task now H. unfold trigger_inv, init. simpl. lia. }
  split; [exact Hinit | split; [| split; [| split]]].
  - intros sf si d now s H.
    destruct (config_success _ _ _ _ _ H) as [vf [f [vr [z [t [_ [_ [_ [_ [_ [Hz [_ Hi]]]]]]]]]]]].
    destruct f; simpl in Hi; try discriminate.
    injection Hi as ->. apply Hinit. exact Hz.
  - intros sf si d now tpt reps task c H.
    destruct (config_success _ _ _ _ _ H) as [vf [f [vr [z [t [_ [_ [_ [_ [_ [Hz [_ Hi]]]]]]]]]]]].
    destruct f; simpl in Hi; try discriminate; injection Hi as _ <- _ _; exact Hz.
  - intros s now r Hinv Hstop. unfold stop in Hstop. unfold call.
    destruct (Qltb r _); simpl; [|exact Hinv].
    unfold trigger_inv. simpl.
    destruct (reps s =? 0)%Z eqn:E0; [left; apply Z.eqb_eq; exact E0|].
    destruct (triggered s <? reps s)%Z eqn:E1; [|discriminate].
    right. apply Z.ltb_lt in E1. lia.
  - intros s H. exact H.
Qed.

(** C5, the claim as stated fails: an invocation that does not fire
    still moves [_last_check] to the current time. *)
Lemma nonfiring_call_moves_last_check :
  let s0 := init 1 0 PNone 0 in
  fired (call 1 (1 # 2) s0) = false /\
  last_check (fst (call 1 (1 # 2) s0)) <> last_check s0.
Proof. cbv. split; [reflexivity | discriminate]. Qed.

(** C5, amended: every invocation sets [_last_check] to the current
    time, adds one to [_triggered] exactly when it fires (handing the
    stored nested configuration to [api.new_task]) and leaves
    [_time_per_trigger], [_reps] and [_task] unchanged. *)
Theorem call_frame :
  forall (s : Frequency) (now r : Q),
    let res := call now r s in
    last_check (fst res) = now /\
    time_per_trigger (fst res) = time_per_trigger s /\
    reps (fst res) = reps s /\
    task (fst res) = task s /\
    triggered (fst res) = (triggered s + if fired res then 1 else 0)%Z /\
    snd res = (if fired res then Some (task s) else None).
Proof.
  intros s now r. unfold call, fired. simpl.
  destruct (Qltb r _); simpl; repeat split; lia.
Qed.




Lemma Qle_bool_0_false f : Qle_bool f 0 = false -> (0 < f)%Q.
Proof.
  intros H. apply Qnot_le_lt. intros Hle. apply Qle_bool_iff in Hle. congruence.
Qed.

Lemma Qle_bool_0_true f : Qle_bool f 0 = true -> ~ (0 < f)%Q.
Proof. intros H Hlt. apply Qle_bool_iff in H. apply (Qlt_not_le _ _ Hlt H). Qed.












Lemma last_default_irrelevant {A} (x : A) l d d' : last (x :: l) d = last (x :: l) d'.
Proof.
  revert x. induction l as [|y l IH]; intros x; [reflexivity|].
  change (last (y :: l) d = last (y :: l) d'). apply IH.
Qed.

Lemma last_cons_default {A} (x : A) l d : last (x :: l) d = last l x.
Proof.
  destruct l as [|y l]; [reflexivity|].
  change (last (y :: l) d = last (y :: l) x). apply last_default_irrelevant.
Qed.

(** A run of invocations composes: the count grows by the number that
    fired, the last sample time is the time of the last invocation, and
    the mean interval, the limit and the nested task are never changed. *)
Theorem calls_compose evs s :
  triggered (calls evs s) = (triggered s + fire_count evs s)%Z /\
  last_check (calls evs s) = last (map fst evs) (last_check s) /\
  time_per_trigger (calls evs s) = time_per_trigger s /\
  reps (calls evs s) = reps s /\ task (calls evs s) = task s.
Proof.
  revert s. induction evs as [|[now r] evs IH]; intros s; cbn [calls fire_count map].
  - repeat split. lia.
  - destruct (IH (fst (call now r s))) as [H1 [H2 [H3 [H4 H5]]]].
    rewrite H1, H2, H3, H4, H5, last_cons_default.
    unfold call, fired. destruct (Qltb r _); cbn [fst snd triggered last_check time_per_trigger reps task]; repeat split; lia.
Qed.

(** The probabilities computed over a run add up to the time elapsed
    since the sample before it, divided by the mean interval: the
    expected number of firings (while each probability is at most 1) is
    [elapsed * frequency / 3600], however the invocations are spaced. *)
Theorem prob_sum_telescopes evs s :
  ~ time_per_trigger s == 0 ->
  prob_sum evs s == (last (map fst evs) (last_check s) - last_check s) / time_per_trigger s.
Proof.
  revert s. induction evs as [|[now r] evs IH]; intros s Ht; cbn [prob_sum map].
  - cbn [last]. field. exact Ht.
  - assert (Et : time_per_trigger (fst (call now r s)) = time_per_trigger s)
      by (unfold call; destruct (Qltb r _); reflexivity).
    assert (El : last_check (fst (call now r s)) = now)
      by (unfold call; destruct (Qltb r _); reflexivity).
    rewrite IH by (rewrite Et; exact Ht). rewrite Et, El, last_cons_default.
    unfold trigger_probability. cbn [fst]. field. exact Ht.
Qed.

Lemma prob_sum_telescopes_witness :
  ~ time_per_trigger (init 3600 0 PNone 0) == 0 /\
  prob_sum [(1, 1#2); (3, 0)] (init 3600 0 PNone 0) ==
    (last (map fst [(1, 1#2); (3, 0)]) (last_check (init 3600 0 PNone 0))
     - last_check (init 3600 0 PNone 0)) / time_per_trigger (init 3600 0 PNone 0).
Proof.
  assert (H : ~ time_per_trigger (init 3600 0 PNone 0) == 0) by (vm_compute; discriminate).
  split; [exact H | exact (prob_sum_telescopes _ _ H)].
Defined.

Lemma triggered_calls_mono evs s : (triggered s <= triggered (calls evs s))%Z.
Proof.
  revert s. induction evs as [|[now r] evs IH]; intros s; simpl; [lia|].
  specialize (IH (fst (call now r s))).
  unfold call in *. destruct (Qltb r _); simpl in *; lia.
Qed.

(** Once [stop()] is true it stays true, whatever invocations follow. *)
Theorem stop_stays_true evs s : stop s = true -> stop (calls evs s) = true.
Proof.
  unfold stop. destruct (calls_compose evs s) as [_ [_ [_ [Hr _]]]].
  rewrite Hr. pose proof (triggered_calls_mono evs s).
  destruct (reps s =? 0)%Z eqn:E0; simpl; [discriminate|].
  destruct (triggered s <? reps s)%Z eqn:E1; [discriminate|].
  apply Z.ltb_ge in E1. intros _.
  assert (E2 : (triggered (calls evs s) <? reps s)%Z = false) by (apply Z.ltb_ge; lia).
  rewrite E2. reflexivity.
Qed.

Lemma stop_stays_true_witness :
  stop (fst (call 7200 0 (init 3600 1 PNone 0))) = true /\
  stop (calls [(7201, 0); (9000, 0)] (fst (call 7200 0 (init 3600 1 PNone 0)))) = true.
Proof.
  assert (H : stop (fst (call 7200 0 (init 3600 1 PNone 0))) = true) by reflexivity.
  split; [exact H | exact (stop_stays_true _ _ H)].
Defined.

(** An invocation whose clock reading is not later than the previous
    sample ([slept <= 0]) never fires, for any draw in [[0, 1)]. *)
Theorem no_fire_without_elapsed now r s :
  0 < time_per_trigger s -> now <= last_check s -> 0 <= r ->
  fired (call now r s) = false /\ triggered (fst (call now r s)) = triggered s.
Proof.
  intros Ht Hn Hr. unfold call, fired, Qltb. simpl.
  assert (Hp : (now - last_check s) / time_per_trigger s <= 0).
  { unfold Qdiv. rewrite Qmult_comm.
    apply (Qmult_le_l _ _ (time_per_trigger s)); [exact Ht|].
    rewrite Qmult_assoc, Qmult_inv_r by (intros E; rewrite E in Ht; discriminate).
    rewrite Qmult_0_r, Qmult_1_l. apply (Qplus_le_l _ _ (last_check s)).
    ring_simplify. exact Hn. }
  assert (E : Qle_bool ((now - last_check s) / time_per_trigger s) r = true)
    by (apply Qle_bool_iff; apply (Qle_trans _ 0); assumption).
  rewrite E. split; reflexivity.
Qed.

Lemma no_fire_without_elapsed_witness :
  0 < time_per_trigger (init 60 0 PNone 5) /\ 3 <= last_check (init 60 0 PNone 5) /\ 0 <= 1#2 /\
  fired (call 3 (1#2) (init 60 0 PNone 5)) = false /\
  triggered (fst (call 3 (1#2) (init 60 0 PNone 5))) = triggered (init 60 0 PNone 5).
Proof.
  assert (H1 : 0 < time_per_trigger (init 60 0 PNone 5)) by reflexivity.
  assert (H2 : 3 <= last_check (init 60 0 PNone 5)) by (vm_compute; discriminate).
  assert (H3 : 0 <= 1#2) by (vm_compute; discriminate).
  split; [exact H1|]. split; [exact H2|]. split; [exact H3|].
  exact (no_fire_without_elapsed _ _ _ H1 H2 H3).
Defined.

(** [float()] and [int()] raise [TypeError] on [None], a list or a dict,
    and [config] only catches [ValueError]: such a [frequency] value, or
    such a [repetitions] value next to a valid [frequency], makes
    [config] raise [TypeError], not the documented [KeyError] or
    [ValueError]. *)
Theorem config_type_error sf si d now :
  (forall v, lookup "frequency" d = Some v ->
     match v with PNone | PList _ | PDict _ => True | _ => False end ->
     config sf si d now = inl TypeError) /\
  (forall v, frequency_ok sf d -> lookup "repetitions" d = Some v ->
     match v with PNone | PList _ | PDict _ => True | _ => False end ->
     config sf si d now = inl TypeError).
Proof.
  split.
  - intros v Hv Ht. unfold config. rewrite Hv.
    destruct v; try contradiction; reflexivity.
  - intros v [f' [f [Hf' [Hq Hle]]]] Hv Ht. unfold config.
    rewrite Hf', Hq, Hle, Hv.
    destruct v; try contradiction; reflexivity.
Qed.

(** What [config] builds. From a finite [float(frequency)]: a fresh
    trigger, untriggered and not stopped, sampling from the moment it was
    built, with a positive mean interval. From [inf]: an object whose
    [_time_per_trigger] is [0.0]; from [nan]: one whose
    [_time_per_trigger] is [nan]; neither is a positive interval. *)
Theorem config_fresh sf si d now i :
  config sf si d now = inr i ->
  exists vf, lookup "frequency" d = Some vf /\
  ((exists q s, py_float sf vf = inr (Fin q) /\ i = Obj s /\
      triggered s = 0%Z /\ last_check s = now /\ stop s = false /\
      0 < time_per_trigger s /\ (0 <= reps s)%Z) \/
   (py_float sf vf = inr (Inf false) /\ exists z t, i = ObjNonFinite (Fin 0) z t now) \/
   (py_float sf vf = inr NaN /\ exists z t, i = ObjNonFinite NaN z t now)).
Proof.
  intros H.
  destruct (config_success _ _ _ _ _ H)
    as [vf [f [vr [z [t [Hv [Hf [Hle [_ [_ [Hz [_ Hi]]]]]]]]]]]].
  exists vf. split; [exact Hv|].
  destruct f as [q | [] |]; simpl in Hle, Hi; try discriminate.
  - left. exists q, (init q z t now). rewrite Hi.
    split; [exact Hf|]. split; [reflexivity|].
    split; [reflexivity|]. split; [reflexivity|].
    split; [unfold stop; simpl; destruct (z =? 0)%Z eqn:E; [reflexivity|];
            apply Z.eqb_neq in E; replace (0 <? z)%Z with true by (symmetry; apply Z.ltb_lt; lia);
            reflexivity|].
    split; [|exact Hz].
    pose proof (Qle_bool_0_false _ Hle) as Hp. simpl.
    apply Qlt_shift_div_l; [exact Hp|]. rewrite Qmult_0_l. reflexivity.
  - right. left. split; [exact Hf|]. exists z, t. exact Hi.
  - right. right. split; [exact Hf|]. exists z, t. exact Hi.
Qed.

(** [config] on [frequency = 'nan'] returns an object whose mean
    interval is [nan]. *)
Lemma config_fresh_witness :
  let sf := fun s : string => if String.eqb s "nan" then Some NaN else @None pyfloat in
  let d0 := [("frequency"%string, PStr "nan"); ("repetitions"%string, PInt 1);
             ("task"%string, PDict [])] in
  config sf (fun _ => None) d0 0 = inr (ObjNonFinite NaN 1 (PDict []) 0) /\
  exists vf, lookup "frequency" d0 = Some vf /\
  ((exists q s, py_float sf vf = inr (Fin q) /\ ObjNonFinite NaN 1 (PDict []) 0 = Obj s /\
      triggered s = 0%Z /\ last_check s = 0 /\ stop s = false /\
      0 < time_per_trigger s /\ (0 <= reps s)%Z) \/
   (py_float sf vf = inr (Inf false) /\
      exists z t, ObjNonFinite NaN 1 (PDict []) 0 = ObjNonFinite (Fin 0) z t 0) \/
   (py_float sf vf = inr NaN /\
      exists z t, ObjNonFinite NaN 1 (PDict []) 0 = ObjNonFinite NaN z t 0)).
Proof.
  cbv zeta.
  assert (H : config (fun s : string => if String.eqb s "nan" then Some NaN else @None pyfloat)
                (fun _ => None)
                [("frequency"%string, PStr "nan"); ("repetitions"%string, PInt 1);
                 ("task"%string, PDict [])] 0
              = inr (ObjNonFinite NaN 1 (PDict []) 0)) by reflexivity.
  split; [exact H | exact (config_fresh _ _ _ _ _ H)].
Defined.

End FrequencyProofs.

(* ================================================================== *)
(** * Properties of [IEManager] *)

Module IEProofs.
Import Py IEManager IETrace.

Lemma cnt_app f l1 l2 : cnt f (l1 ++ l2) = (cnt f l1 + cnt f l2)%nat.
Proof. induction l1 as [|x l1 IH]; simpl; [reflexivity | rewrite IH; lia]. Qed.

Lemma cnt_cons f x l : cnt f (x :: l) = ((if f x then 1 else 0) + cnt f l)%nat.
Proof. reflexivity. Qed.

Lemma inflight_app l1 l2 : inflight (l1 ++ l2) = inflight l1 ++ inflight l2.
Proof. unfold inflight. apply flat_map_app. Qed.

Lemma inflight_cons x l :
  inflight (x :: l) = match x with WExec r => [r] | _ => [] end ++ inflight l.
Proof. reflexivity. Qed.

Lemma inflight_no_owner l : cnt is_owner l = 0%nat -> inflight l = [].
Proof.
  induction l as [|x l IH]; [reflexivity|].
  rewrite cnt_cons, inflight_cons. destruct x; simpl; intros H; try lia; apply IH; lia.
Qed.

Lemma cnt_le f g l :
  (forall x, f x = true -> g x = true) -> (cnt f l <= cnt g l)%nat.
Proof.
  intros Hfg. induction l as [|x l IH]; simpl; [lia|].
  destruct (f x) eqn:E; [rewrite (Hfg x E)|destruct (g x)]; lia.
Qed.

Lemma loop_owner l : (cnt is_loop l <= cnt is_owner l)%nat.
Proof. apply cnt_le. intros x. unfold is_owner. now intros ->. Qed.

Lemma reset1_owner l : (cnt is_reset1 l <= cnt is_owner l)%nat.
Proof. apply cnt_le. intros x. unfold is_owner. intros ->. apply orb_true_r. Qed.

Lemma exec_owner l : (cnt is_exec l <= cnt is_owner l)%nat.
Proof. apply cnt_le. intros []; unfold is_owner; simpl; intros H; try discriminate; reflexivity. Qed.

Lemma has_exit_cons e l : has_exit (e :: l) = is_exit e || has_exit l.
Proof. reflexivity. Qed.

(** The invariant only reads the queue, the client, the threads and the
    log. *)
Lemma inv_ext st st' :
  Inv st -> queue st' = queue st -> client st' = client st ->
  workers st' = workers st -> log st' = log st -> Inv st'.
Proof.
  intros [] Hq Hc Hw Hl. constructor; rewrite ?Hq, ?Hc, ?Hw, ?Hl; assumption.
Qed.

(** Events that neither put nor run a request, nor open or close a
    generation. *)
Definition neutral (e : event) : bool :=
  match e with
  | ERaise _ | EFeedback _ | ERelease | EWorkerDied | ESleepRaised => true
  | _ => false
  end.

Lemma inv_emit_neutral e st : neutral e = true -> Inv st -> Inv (emit e st).
Proof.
  intros He [].
  assert (Hc : cur_seg (e :: log st) = e :: cur_seg (log st))
    by (destruct e; try discriminate; reflexivity).
  assert (Hx : is_exit e = false) by (destruct e; try discriminate; reflexivity).
  assert (Hp : forall l, puts (e :: l) = puts l)
    by (destruct e; try discriminate; reflexivity).
  assert (Hex : forall l, execs (e :: l) = execs l)
    by (destruct e; try discriminate; reflexivity).
  assert (Ho : old_segs (e :: log st) = old_segs (log st))
    by (destruct e; try discriminate; reflexivity).
  assert (Hb : forall l, before_exit (e :: l) = before_exit l)
    by (intros l; simpl; rewrite Hx; reflexivity).
  constructor; unfold emit; cbn [workers queue client log];
    rewrite ?Hc, ?Hp, ?Hex, ?Ho, ?Hb, ?has_exit_cons, ?Hx; cbn [orb]; auto.
Qed.

Lemma inflight_cons' x l : inflight (x :: l) = inflight [x] ++ inflight l.
Proof. destruct x; reflexivity. Qed.

Lemma first_is_start_app l m :
  l <> [] -> first_is_start (l ++ m) <-> first_is_start l.
Proof. destruct l; [congruence | reflexivity]. Qed.

Lemma inv_init : Inv init.
Proof.
  constructor; simpl; try discriminate; try tauto; auto.
  split; [reflexivity | discriminate].
Qed.

Lemma inv_fresh st :
  Inv st -> queue st = None ->
  Inv (emit EFresh (set_client CNewSpawn (set_queue (Some []) st))).
Proof.
  intros I Hq. destruct (inv_none _ I Hq) as [Hown Hc].
  constructor; simpl; try discriminate; auto.
  - rewrite Hown. lia.
  - intros _. left. exists []. split; [reflexivity|].
    rewrite (inflight_no_owner _ Hown). reflexivity.
  - intros H. pose proof (reset1_owner (workers st)). lia.
  - constructor; [|exact (inv_old _ I)].
    split; [|exact (inv_start _ I)].
    destruct (has_exit (cur_seg (log st))) eqn:E.
    + left. split; [reflexivity|]. exact (proj2 (inv_exit _ I E)).
    + right. destruct (inv_open _ I E) as [[q [Hq' _]] | [_ H]]; [congruence | exact H].
Qed.

(** A request put on the current queue, the client ending up idle. *)
Lemma inv_put st st' r q :
  Inv st -> client st <> CNewSpawn -> queue st = Some q ->
  (puts (cur_seg (log st)) = [] -> r = start_req) ->
  queue st' = Some (q ++ [r]) -> client st' = CIdle ->
  workers st' = workers st -> log st' = EPut r :: log st ->
  Inv st'.
Proof.
  intros I Hns Hq Hstart Hq' Hc' Hw' Hl'.
  assert (Hsp : spawn_bit (client st) = 0%nat) by (destruct (client st) eqn:E; simpl; congruence).
  pose proof (inv_own _ I) as Hown.
  constructor; rewrite ?Hq', ?Hc', ?Hw', ?Hl'; simpl; try discriminate; try congruence.
  - intros Hx. destruct (inv_open _ I Hx) as [[q0 [Hq0 He]] | [Hn _]]; [|congruence].
    left. exists (q ++ [r]). split; [reflexivity|].
    rewrite Hq in Hq0. injection Hq0 as <-. rewrite He.
    rewrite !app_assoc. reflexivity.
  - intros Hx. exact (inv_exit _ I Hx).
  - intros Hx. exact (inv_reset1 _ I Hx).
  - destruct (puts (cur_seg (log st))) eqn:Ep.
    + simpl. apply Hstart. reflexivity.
    + apply first_is_start_app.
      * rewrite <- Ep. intros Hr. apply (f_equal (@rev request)) in Hr.
        rewrite rev_involutive in Hr. simpl in Hr. rewrite Ep in Hr. discriminate.
      * rewrite <- Ep. exact (inv_start _ I).
  - exact (inv_old _ I).
Qed.

Lemma inv_new_manager st : Inv st -> client st = CIdle -> Inv (new_manager st).
Proof.
  intros I Hc. unfold new_manager. destruct (queue st) eqn:Hq; [exact I|].
  apply inv_fresh; assumption.
Qed.

Lemma inv_client_call c st : Inv st -> client st = CIdle -> Inv (client_call c st).
Proof.
  intros I Hc. destruct c as [| site tid d | | platform config]; simpl.
  - apply inv_new_manager; assumption.
  - unfold get. destruct (queue st) as [q|] eqn:Hq.
    + apply (inv_put st _ (mkRequest (VisitSite site) tid d) q I); try reflexivity;
        try exact Hc; try congruence.
      intros Hp. exfalso. exact (inv_idle _ I Hc ltac:(congruence) Hp).
    + apply inv_emit_neutral; [reflexivity | exact I].
  - apply (inv_ext st); try reflexivity; exact I.
  - unfold iebrowser_init. destruct (negb _).
    + apply inv_emit_neutral; [reflexivity | exact I].
    + simpl. destruct (lookup "close_browser" config).
      * apply inv_new_manager; assumption.
      * apply inv_emit_neutral; [reflexivity | exact I].
Qed.

Lemma inv_cont st st' : Inv st -> client_cont st = Some st' -> Inv st'.
Proof.
  intros I H. unfold client_cont in H. destruct (client st) eqn:Hc; [discriminate | |].
  - injection H as <-. pose proof (inv_own _ I) as Hown. rewrite Hc in Hown.
    simpl in Hown.
    assert (Hq : queue st <> None)
      by (intros Hn; destruct (inv_none _ I Hn); congruence).
    constructor; simpl; try discriminate; try congruence.
    + rewrite cnt_app. simpl. lia.
    + intros _. apply (inv_newputs _ I). congruence.
    + intros Hx. destruct (inv_open _ I Hx) as [[q [Hq1 He]] | Hn]; [|right; exact Hn].
      left. exists q. split; [exact Hq1|]. rewrite inflight_app. simpl.
      rewrite app_nil_r. exact He.
    + pose proof (inv_spawn_open _ I Hc). congruence.
    + rewrite cnt_app. simpl. pose proof (reset1_owner (workers st)). lia.
    + exact (inv_start _ I).
    + exact (inv_old _ I).
  - destruct (queue st) as [q|] eqn:Hq.
    + injection H as <-. apply (inv_put st _ start_req q I); try reflexivity; congruence.
    + injection H as <-. apply inv_emit_neutral; [reflexivity|].
      destruct I as [Io In Inp Isp Iop Iex Ir Ist Iid Iold].
      constructor; simpl; try assumption; try congruence.
      * rewrite Hc in Io. simpl in Io. exact Io.
      * intros _. split; [|discriminate]. exact (proj1 (In Hq)).
Qed.

(** A worker moving between two program counters of the same kind. *)
Lemma inv_replace st ws1 pc ws2 pc' st' :
  Inv st -> workers st = ws1 ++ pc :: ws2 ->
  is_loop pc' = is_loop pc -> is_reset1 pc' = is_reset1 pc ->
  inflight [pc'] = inflight [pc] ->
  queue st' = queue st -> client st' = client st -> log st' = log st ->
  Inv (set_workers (ws1 ++ pc' :: ws2) st').
Proof.
  intros I Hws Hl Hr Hi Hq Hc Hlg.
  assert (Ec : forall f : wpc -> bool, f pc' = f pc ->
            cnt f (ws1 ++ pc' :: ws2) = cnt f (workers st))
    by (intros f Hf; rewrite Hws, !cnt_app, !cnt_cons, Hf; reflexivity).
  assert (Eo : cnt is_owner (ws1 ++ pc' :: ws2) = cnt is_owner (workers st))
    by (apply Ec; unfold is_owner; rewrite Hl, Hr; reflexivity).
  pose proof (Ec is_loop Hl) as El. pose proof (Ec is_reset1 Hr) as Er.
  assert (Ei : inflight (ws1 ++ pc' :: ws2) = inflight (workers st))
    by (rewrite Hws, !inflight_app, inflight_cons', (inflight_cons' pc), Hi; reflexivity).
  destruct I as [Io In Inp Isp Iop Iex Ir Ist Iid Iold].
  constructor; unfold set_workers; cbn [workers queue client log];
    rewrite ?Eo, ?El, ?Er, ?Ei, ?Hq, ?Hc, ?Hlg; assumption.
Qed.

Lemma cnt_pos f ws1 pc ws2 : f pc = true -> cnt f (ws1 ++ pc :: ws2) <> 0%nat.
Proof. intros H. rewrite cnt_app, cnt_cons, H. lia. Qed.

(** What the invariant says about a worker inside the loop. *)
Lemma loop_facts st ws1 pc ws2 :
  Inv st -> workers st = ws1 ++ pc :: ws2 -> is_loop pc = true ->
  cnt is_owner ws1 = 0%nat /\ cnt is_owner ws2 = 0%nat /\
  client st <> CNewSpawn /\ has_exit (cur_seg (log st)) = false /\
  exists q, queue st = Some q /\
    rev (puts (cur_seg (log st))) =
    rev (execs (cur_seg (log st))) ++ inflight [pc] ++ q.
Proof.
  intros I Hws Hl.
  pose proof (inv_own _ I) as Ho. rewrite Hws, cnt_app, cnt_cons in Ho.
  assert (Hpo : is_owner pc = true) by (unfold is_owner; rewrite Hl; reflexivity).
  rewrite Hpo in Ho.
  assert (Hsp : spawn_bit (client st) = 0%nat) by lia.
  assert (Hns : client st <> CNewSpawn) by (intros E; rewrite E in Hsp; discriminate).
  assert (Hx : has_exit (cur_seg (log st)) = false).
  { destruct (has_exit (cur_seg (log st))) eqn:E; [|reflexivity].
    destruct (inv_exit _ I E) as [H0 _]. rewrite Hws in H0.
    exfalso. exact (cnt_pos _ _ _ _ Hl H0). }
  assert (H1 : cnt is_owner ws1 = 0%nat) by lia.
  assert (H2 : cnt is_owner ws2 = 0%nat) by lia.
  do 4 (split; [assumption|]).
  destruct (inv_open _ I Hx) as [[q [Hq He]] | [Hn _]].
  - exists q. split; [exact Hq|]. rewrite He, Hws, inflight_app, inflight_cons',
      (inflight_no_owner _ H1), (inflight_no_owner _ H2), app_nil_r. reflexivity.
  - destruct (inv_none _ I Hn) as [H0 _]. rewrite Hws in H0.
    exfalso. exact (cnt_pos _ _ _ _ Hpo H0).
Qed.

(** What the invariant says about a worker that has just left the loop. *)
Lemma reset1_facts st ws1 ws2 :
  Inv st -> workers st = ws1 ++ WReset1 :: ws2 ->
  cnt is_owner ws1 = 0%nat /\ cnt is_owner ws2 = 0%nat /\
  client st <> CNewSpawn /\ has_exit (cur_seg (log st)) = true.
Proof.
  intros I Hws.
  pose proof (inv_own _ I) as Ho. rewrite Hws, cnt_app, cnt_cons in Ho. simpl in Ho.
  assert (Hsp : spawn_bit (client st) = 0%nat) by lia.
  repeat split; try lia.
  - intros E. rewrite E in Hsp. discriminate.
  - apply (inv_reset1 _ I). rewrite Hws. apply cnt_pos. reflexivity.
Qed.

Lemma inv_exec st ws1 r ws2 o ie' :
  Inv st -> workers st = ws1 ++ WExec r :: ws2 ->
  Inv (set_workers (ws1 ++ WTest :: ws2) (emit (EExec r o) (set_ie ie' st))).
Proof.
  intros I Hws.
  destruct (loop_facts _ _ _ _ I Hws eq_refl) as [H1 [H2 [Hns [Hx [q [Hq He]]]]]].
  assert (Eo : cnt is_owner (ws1 ++ WTest :: ws2) = cnt is_owner (workers st))
    by (rewrite Hws, !cnt_app, !cnt_cons; reflexivity).
  assert (Er : cnt is_reset1 (ws1 ++ WTest :: ws2) = 0%nat).
  { rewrite cnt_app, cnt_cons. simpl.
    pose proof (reset1_owner ws1). pose proof (reset1_owner ws2). lia. }
  assert (Ei : inflight (ws1 ++ WTest :: ws2) = [])
    by (rewrite inflight_app, (inflight_no_owner _ H1); simpl;
        exact (inflight_no_owner _ H2)).
  destruct I as [Io In Inp Isp Iop Iex Ir Ist Iid Iold].
  constructor; unfold set_workers, emit, set_ie; cbn [workers queue client log];
    rewrite ?Eo, ?Er, ?Ei, ?Hq; cbn [cur_seg is_fresh puts execs old_segs];
    rewrite ?has_exit_cons; cbn [is_exit orb]; rewrite ?Hx;
    try discriminate; try congruence; try assumption.
  - intros _. left. exists q. split; [reflexivity|].
    rewrite He. simpl. rewrite <- app_assoc. reflexivity.
  - intros Hc _. apply Iid; congruence.
Qed.

Lemma inv_testq_empty st ws1 ws2 :
  Inv st -> workers st = ws1 ++ WTestQ :: ws2 -> queue st = Some [] ->
  Inv (set_workers (ws1 ++ WReset1 :: ws2) (emit EExit st)).
Proof.
  intros I Hws Hq0.
  destruct (loop_facts _ _ _ _ I Hws eq_refl) as [H1 [H2 [Hns [Hx [q [Hq He]]]]]].
  rewrite Hq0 in Hq. injection Hq as <-. simpl in He. rewrite app_nil_r in He.
  assert (Eo : cnt is_owner (ws1 ++ WReset1 :: ws2) = cnt is_owner (workers st))
    by (rewrite Hws, !cnt_app, !cnt_cons; reflexivity).
  assert (El : cnt is_loop (ws1 ++ WReset1 :: ws2) = 0%nat).
  { rewrite cnt_app, cnt_cons. simpl.
    pose proof (loop_owner ws1). pose proof (loop_owner ws2). lia. }
  destruct I as [Io In Inp Isp Iop Iex Ir Ist Iid Iold].
  constructor; unfold set_workers, emit; cbn [workers queue client log];
    rewrite ?Eo, ?El, ?Hq0; cbn [cur_seg is_fresh puts execs old_segs before_exit];
    rewrite ?has_exit_cons; cbn [is_exit orb]; rewrite ?Hx;
    try discriminate; try congruence; try assumption.
  - split; [reflexivity|].
    rewrite <- (rev_involutive (puts _)), He, rev_involutive. reflexivity.
  - intros Hc _. apply Iid; congruence.
Qed.

Lemma inv_get st ws1 ws2 r q :
  Inv st -> workers st = ws1 ++ WGet :: ws2 -> queue st = Some (r :: q) ->
  Inv (set_workers (ws1 ++ WExec r :: ws2) (set_queue (Some q) st)).
Proof.
  intros I Hws Hq0.
  destruct (loop_facts _ _ _ _ I Hws eq_refl) as [H1 [H2 [Hns [Hx [q' [Hq He]]]]]].
  rewrite Hq0 in Hq. injection Hq as <-.
  assert (Eo : cnt is_owner (ws1 ++ WExec r :: ws2) = cnt is_owner (workers st))
    by (rewrite Hws, !cnt_app, !cnt_cons; reflexivity).
  assert (Er : cnt is_reset1 (ws1 ++ WExec r :: ws2) = 0%nat).
  { rewrite cnt_app, cnt_cons. simpl.
    pose proof (reset1_owner ws1). pose proof (reset1_owner ws2). lia. }
  assert (Ei : inflight (ws1 ++ WExec r :: ws2) = [r])
    by (rewrite inflight_app, (inflight_no_owner _ H1); simpl;
        rewrite (inflight_no_owner _ H2); reflexivity).
  destruct I as [Io In Inp Isp Iop Iex Ir Ist Iid Iold].
  constructor; unfold set_workers, set_queue; cbn [workers queue client log];
    rewrite ?Eo, ?Er, ?Ei; try discriminate; try congruence; try assumption.
  - intros _. left. exists q. split; [reflexivity|]. rewrite He. reflexivity.
  - intros Hc _. apply Iid; congruence.
Qed.

Lemma inv_reset1_step st ws1 ws2 :
  Inv st -> workers st = ws1 ++ WReset1 :: ws2 ->
  Inv (set_workers (ws1 ++ WReset2 :: ws2) (set_queue None st)).
Proof.
  intros I Hws.
  destruct (reset1_facts _ _ _ I Hws) as [H1 [H2 [Hns Hx]]].
  assert (Eo : cnt is_owner (ws1 ++ WReset2 :: ws2) = 0%nat)
    by (rewrite cnt_app, cnt_cons; simpl; lia).
  assert (El : cnt is_loop (ws1 ++ WReset2 :: ws2) = 0%nat).
  { pose proof (loop_owner (ws1 ++ WReset2 :: ws2)). lia. }
  assert (Er : cnt is_reset1 (ws1 ++ WReset2 :: ws2) = 0%nat).
  { pose proof (reset1_owner (ws1 ++ WReset2 :: ws2)). lia. }
  destruct I as [Io In Inp Isp Iop Iex Ir Ist Iid Iold].
  constructor; unfold set_workers, set_queue; cbn [workers queue client log];
    rewrite ?Eo, ?El, ?Er; try discriminate; try congruence; try assumption.
  - destruct (client st); simpl; [lia | congruence | lia].
  - intros _. split; [reflexivity | exact Hns].
  - intros _. split; [reflexivity | exact (proj2 (Iex Hx))].
Qed.

(** A thread ending outside the teardown (no request in hand, not about
    to clear the queue). *)
Lemma inv_stop_thread st ws1 pc ws2 :
  Inv st -> workers st = ws1 ++ pc :: ws2 -> is_reset1 pc = false ->
  inflight [pc] = [] ->
  Inv (set_workers (ws1 ++ WDone :: ws2) st).
Proof.
  intros I Hws Hr Hi.
  assert (E : forall f : wpc -> bool, f WDone = false ->
            (cnt f (ws1 ++ WDone :: ws2) <= cnt f (workers st))%nat)
    by (intros f Hf; rewrite Hws, !cnt_app, !cnt_cons, Hf; lia).
  assert (Er : cnt is_reset1 (ws1 ++ WDone :: ws2) = cnt is_reset1 (workers st))
    by (rewrite Hws, !cnt_app, !cnt_cons, Hr; reflexivity).
  assert (Ei : inflight (ws1 ++ WDone :: ws2) = inflight (workers st))
    by (rewrite Hws, !inflight_app, inflight_cons', (inflight_cons' pc), Hi; reflexivity).
  pose proof (E is_owner eq_refl) as Eo. pose proof (E is_loop eq_refl) as El.
  destruct I as [Io In Inp Isp Iop Iex Ir Ist Iid Iold].
  constructor; unfold set_workers; cbn [workers queue client log];
    rewrite ?Er, ?Ei; try assumption.
  - lia.
  - intros Hq. destruct (In Hq) as [H0 H1]. split; [lia | exact H1].
  - intros Hx. destruct (Iex Hx) as [H0 H1]. split; [lia | exact H1].
Qed.

Lemma inv_worker st ws1 pc ws2 pc' st' :
  Inv st -> workers st = ws1 ++ pc :: ws2 -> wstep pc st pc' st' ->
  Inv (set_workers (ws1 ++ pc' :: ws2) st').
Proof.
  intros I Hws Hw. revert I Hws. destruct Hw; intros I Hws.
  - apply (inv_replace st ws1 WTest); auto.
  - apply (inv_replace st ws1 WTest); auto.
  - apply (inv_replace st ws1 WTestQ); auto.
  - apply inv_testq_empty; assumption.
  - exfalso. destruct (loop_facts _ _ _ _ I Hws eq_refl) as [_ [_ [_ [_ [q [Hq _]]]]]].
    congruence.
  - eapply inv_get; eassumption.
  - apply (inv_replace st ws1 WGet); auto.
  - exfalso. destruct (loop_facts _ _ _ _ I Hws eq_refl) as [_ [_ [_ [_ [q [Hq _]]]]]].
    congruence.
  - apply inv_exec; assumption.
  - change (Inv (emit (EFeedback (task_id r))
                  (set_workers (ws1 ++ WTest :: ws2) (emit (EExec r Raised) (set_ie ie' st))))).
    apply inv_emit_neutral; [reflexivity|]. apply inv_exec; assumption.
  - change (Inv (emit ESleepRaised
                  (set_workers (ws1 ++ WDone :: ws2)
                     (set_workers (ws1 ++ WTest :: ws2) (emit (EExec r Ok) (set_ie ie' st)))))).
    apply inv_emit_neutral; [reflexivity|].
    apply (inv_stop_thread _ ws1 WTest ws2); [apply inv_exec; assumption | reflexivity ..].
  - change (Inv (emit ESleepRaised
                  (set_workers (ws1 ++ WDone :: ws2)
                     (emit (EFeedback (task_id r))
                        (set_workers (ws1 ++ WTest :: ws2)
                           (emit (EExec r Raised) (set_ie ie' st))))))).
    apply inv_emit_neutral; [reflexivity|].
    apply (inv_stop_thread _ ws1 WTest ws2); [|reflexivity ..].
    apply inv_emit_neutral; [reflexivity|]. apply inv_exec; assumption.
  - apply inv_reset1_step; assumption.
  - apply (inv_replace st ws1 WReset2); auto.
  - change (Inv (emit ERelease (set_workers (ws1 ++ WClear :: ws2) st))).
    apply inv_emit_neutral; [reflexivity|].
    apply (inv_replace st ws1 WQuit); auto.
  - apply (inv_replace st ws1 WClear); auto.
Qed.

Lemma inv_step st st' : Inv st -> step st st' -> Inv st'.
Proof.
  intros I Hs. destruct Hs as [c st0 Hc | st0 st1 Hc | st0 ws1 pc ws2 pc' st1 Hws Hw].
  - apply inv_client_call; assumption.
  - exact (inv_cont _ _ I Hc).
  - exact (inv_worker _ _ _ _ _ _ I Hws Hw).
Qed.

Lemma inv_steps st st' : Inv st -> steps st st' -> Inv st'.
Proof. intros I Hs. induction Hs; [exact I | apply IHHs; exact (inv_step _ _ I H)]. Qed.

Lemma inv_reachable st : reachable st -> Inv st.
Proof. intros H. exact (inv_steps _ _ inv_init H). Qed.

(** Running a schedule: one tactic per kind of step. *)
Ltac run_call c := eapply steps_trans; [apply (step_call c); reflexivity |].
Ltac run_cont := eapply steps_trans; [apply step_cont; reflexivity |].
Ltac run_worker ws1 pc ws2 tac :=
  eapply steps_trans; [eapply (step_worker _ ws1 pc ws2); [reflexivity | tac] |].
Ltac run_end :=
  lazymatch goal with
  | |- steps ?a ?b =>
      let H := fresh in assert (H : a = b) by reflexivity; rewrite H; apply steps_refl
  end.

Lemma steps_app a b c : steps a b -> steps b c -> steps a c.
Proof. intros H1 H2. induction H1; [exact H2 | eapply steps_trans; eauto]. Qed.

Lemma start_popped_reachable : reachable start_popped.
Proof.
  unfold reachable.
  run_call CallNew. run_cont. run_cont.
  run_worker (@nil wpc) WTest (@nil wpc) ltac:(apply ws_test_true; reflexivity).
  run_worker (@nil wpc) WGet (@nil wpc) ltac:(eapply ws_get; reflexivity).
  run_end.
Qed.

(** From [start_popped]: the start action succeeds, then the main thread
    calls [close_browser()] and the consumer sees [_persist] false and an
    empty queue. *)
Lemma start_popped_to_exit :
  steps start_popped
    {| queue := Some []; persist := false; ie := true; client := CIdle;
       workers := [WReset1];
       log := [EExit; EExec start_req Ok; EPut start_req; EFresh] |}.
Proof.
  run_worker (@nil wpc) (WExec start_req) (@nil wpc)
    ltac:(apply ws_exec_ok; [apply run_start_ok | vm_compute; discriminate]).
  run_call CallClose.
  run_worker (@nil wpc) WTest (@nil wpc) ltac:(apply ws_test_false; reflexivity).
  run_worker (@nil wpc) WTestQ (@nil wpc) ltac:(apply ws_testq_empty; reflexivity).
  run_end.
Qed.

Lemma race_mid_reachable : reachable race_mid.
Proof.
  eapply steps_app; [exact start_popped_reachable|].
  eapply steps_app; [exact start_popped_to_exit|].
  run_call (CallGet "a" 1 0). run_end.
Qed.

Lemma teardown_done_reachable : reachable teardown_done.
Proof.
  eapply steps_app; [exact start_popped_reachable|].
  eapply steps_app; [exact start_popped_to_exit|].
  run_worker (@nil wpc) WReset1 (@nil wpc) ltac:(apply ws_reset1).
  run_worker (@nil wpc) WReset2 (@nil wpc) ltac:(apply ws_reset2).
  run_worker (@nil wpc) WQuit (@nil wpc) ltac:(apply ws_quit).
  run_worker (@nil wpc) WClear (@nil wpc) ltac:(apply ws_clear).
  run_end.
Qed.

Lemma puts_app l1 l2 : puts (l1 ++ l2) = puts l1 ++ puts l2.
Proof. induction l1 as [|[] l1 IH]; simpl; rewrite ?IH; reflexivity. Qed.

Lemma execs_app l1 l2 : execs (l1 ++ l2) = execs l1 ++ execs l2.
Proof. induction l1 as [|[] l1 IH]; simpl; rewrite ?IH; reflexivity. Qed.

Lemma has_exit_app l1 l2 : has_exit (l1 ++ l2) = has_exit l1 || has_exit l2.
Proof. unfold has_exit. apply existsb_app. Qed.

Lemma before_exit_app l1 l2 :
  has_exit l1 = true -> before_exit (l1 ++ l2) = before_exit l1 ++ l2.
Proof.
  induction l1 as [|e l1 IH]; [discriminate|].
  rewrite has_exit_cons. simpl. destruct (is_exit e); [reflexivity|]. exact IH.
Qed.

Lemma puts_before_exit s :
  has_exit s = true -> exists pre, puts s = pre ++ puts (before_exit s).
Proof.
  induction s as [|e s IH]; [discriminate|].
  rewrite has_exit_cons. intros H.
  destruct e; simpl in H |- *;
    try (destruct (IH H) as [pre Hp]; rewrite Hp;
         first [exists pre; reflexivity | exists (r :: pre); reflexivity]).
  exists []. reflexivity.
Qed.

Lemma exit_fifo s :
  has_exit s = true -> execs s = puts (before_exit s) ->
  exists rest, rev (puts s) = rev (execs s) ++ rest.
Proof.
  intros Hx He. destruct (puts_before_exit s Hx) as [pre Hp].
  exists (rev pre). rewrite Hp, He, rev_app_distr. reflexivity.
Qed.

Lemma closed_fifo s : closed_seg s -> fifo_seg s.
Proof.
  intros [[[Hx He] | [Hp He]] Hs]; split; try exact Hs.
  - exact (exit_fifo s Hx He).
  - exists []. rewrite Hp, He. reflexivity.
Qed.

Lemma cur_fifo st : Inv st -> fifo_seg (cur_seg (log st)).
Proof.
  intros I. split; [|exact (inv_start _ I)].
  destruct (has_exit (cur_seg (log st))) eqn:Hx.
  - exact (exit_fifo _ Hx (proj2 (inv_exit _ I Hx))).
  - destruct (inv_open _ I Hx) as [[q [_ He]] | [_ [Hp He]]].
    + eexists. exact He.
    + exists []. rewrite Hp, He. reflexivity.
Qed.

(** Logs only grow. *)
Ltac log_ext :=
  unfold emit, set_queue, set_client, set_workers, set_persist, set_ie; cbn [log];
  first
  [ exists []; reflexivity
  | lazymatch goal with
    | |- exists n, ?e1 :: ?e2 :: ?e3 :: ?l = n ++ ?l => exists [e1; e2; e3]; reflexivity
    | |- exists n, ?e1 :: ?e2 :: ?l = n ++ ?l => exists [e1; e2]; reflexivity
    | |- exists n, ?e :: ?l = n ++ ?l => exists [e]; reflexivity
    end ].

Lemma step_log st st' : step st st' -> exists new, log st' = new ++ log st.
Proof.
  intros Hs. destruct Hs as [c st Hc | st st' Hc | st ws1 pc ws2 pc' st' Hws Hw].
  - destruct c as [| site tid d | | platform config]; simpl.
    + unfold new_manager. destruct (queue st); log_ext.
    + unfold get. destruct (queue st); log_ext.
    + unfold close_browser. log_ext.
    + unfold iebrowser_init. destruct (negb _); [log_ext|].
      simpl. destruct (lookup _ config); [|log_ext].
      unfold new_manager. destruct (queue st); log_ext.
  - unfold client_cont in Hc. destruct (client st); [discriminate | |].
    + injection Hc as <-. log_ext.
    + destruct (queue st); injection Hc as <-; log_ext.
  - destruct Hw; log_ext.
Qed.

Lemma steps_log st st' : steps st st' -> exists new, log st' = new ++ log st.
Proof.
  induction 1 as [st | st1 st2 st3 H12 _ [n2 IH]].
  - exists []. reflexivity.
  - destruct (step_log _ _ H12) as [n1 H1]. exists (n2 ++ n1).
    rewrite IH, H1, app_assoc. reflexivity.
Qed.

Lemma steps_snoc a b c : steps a b -> step b c -> steps a c.
Proof. intros H1 H2. eapply steps_app; [exact H1 | eapply steps_trans; [exact H2 | apply steps_refl]]. Qed.

Definition no_fresh (l : list event) : bool := negb (existsb is_fresh l).

Lemma fresh_split l :
  no_fresh l = true \/
  exists n2 n1, l = n2 ++ EFresh :: n1 /\ no_fresh n1 = true.
Proof.
  induction l as [|e l [IH | [n2 [n1 [-> Hn]]]]]; [left; reflexivity | |].
  - destruct e; try (left; exact IH). right. exists [], l. split; [reflexivity | exact IH].
  - right. exists (e :: n2), n1. split; [reflexivity | exact Hn].
Qed.

Lemma cur_seg_app n l : no_fresh n = true -> cur_seg (n ++ l) = n ++ cur_seg l.
Proof.
  induction n as [|e n IH]; [reflexivity|]. unfold no_fresh. simpl.
  destruct e; simpl; try discriminate; intros H; rewrite IH; try reflexivity; exact H.
Qed.

Lemma old_segs_app n l s : In s (old_segs l) -> In s (old_segs (n ++ l)).
Proof.
  induction n as [|e n IH]; [exact id|]. intros H. simpl.
  destruct (is_fresh e); [right|]; exact (IH H).
Qed.

(** The generation of the queue object of a log [l], seen after [new]
    events: still current, or closed. *)
Lemma seg_of_extension st2 new l :
  Inv st2 -> log st2 = new ++ l ->
  (no_fresh new = true /\ cur_seg (log st2) = new ++ cur_seg l) \/
  (exists n2 n1, new = n2 ++ EFresh :: n1 /\ closed_seg (n1 ++ cur_seg l)).
Proof.
  intros I Hl. destruct (fresh_split new) as [Hn | [n2 [n1 [-> Hn]]]].
  - left. split; [exact Hn|]. rewrite Hl. exact (cur_seg_app _ _ Hn).
  - right. exists n2, n1. split; [reflexivity|].
    pose proof (inv_old _ I) as Hold. rewrite Hl, <- app_assoc in Hold.
    rewrite Forall_forall in Hold. apply Hold. apply old_segs_app. simpl.
    left. rewrite (cur_seg_app _ _ Hn). reflexivity.
Qed.

(** A generation that was open with [q] queued and then saw its
    consumer leave the loop ran all of [q], in order, before that. *)
Lemma drained_before_exit n1 c q :
  has_exit c = false -> has_exit n1 = true ->
  rev (puts c) = rev (execs c) ++ q ->
  execs (n1 ++ c) = puts (before_exit (n1 ++ c)) ->
  exists t, rev (execs n1) = q ++ t.
Proof.
  intros Hc Hn Hpc He.
  rewrite execs_app, before_exit_app, puts_app in He by exact Hn.
  assert (Hp : puts c = rev q ++ execs c).
  { rewrite <- (rev_involutive (puts c)), Hpc, rev_app_distr, rev_involutive.
    reflexivity. }
  rewrite Hp, app_assoc in He. apply app_inv_tail in He.
  exists (rev (puts (before_exit n1))). rewrite He, rev_app_distr, rev_involutive.
  reflexivity.
Qed.

(** C7: within one executor, actions run in submission (FIFO) order, at
    most one at a time, and the first request of a fresh executor is the
    start action. In every reachable state at most one consumer thread is
    running an action, and in every generation of the log (one per queue
    object, i.e. per executor) the requests run are, in order, a prefix of
    the requests put, the first of which is [_start_ie]. *)
Theorem fifo_single_executor st :
  reachable st ->
  (cnt is_exec (workers st) <= 1)%nat /\ Forall fifo_seg (segments (log st)).
Proof.
  intros H. pose proof (inv_reachable _ H) as I. split.
  - pose proof (exec_owner (workers st)). pose proof (inv_own _ I). lia.
  - constructor; [exact (cur_fifo _ I)|].
    eapply Forall_impl; [exact closed_fifo | exact (inv_old _ I)].
Qed.

Lemma fifo_single_executor_witness :
  reachable race_mid /\
  (cnt is_exec (workers race_mid) <= 1)%nat /\
  Forall fifo_seg (segments (log race_mid)).
Proof.
  split; [exact race_mid_reachable|].
  apply fifo_single_executor. exact race_mid_reachable.
Defined.

Lemma in_exit_has_exit l : In EExit l -> has_exit l = true.
Proof. intros H. apply existsb_exists. exists EExit. split; [exact H | reflexivity]. Qed.

(** C8: when the action [b] a consumer is running raises, and [b]'s
    delay is not negative (a negative delay makes [time.sleep] raise
    after the feedback and ends the thread), the consumer catches it: the
    step adds exactly one feedback event, tagged with [b]'s task id,
    after the failed run; the thread goes back to the loop test and the
    queue is untouched. Whatever happens next, once that executor's loop
    ends every request that was queued behind [b] has been run, in order,
    first. *)
Theorem raise_reported_nothing_skipped st ws1 b ws2 ie' :
  reachable st -> workers st = ws1 ++ WExec b :: ws2 ->
  run_action (act b) (ie st) Raised ie' -> (0 <= delay b)%Q ->
  let st1 := set_workers (ws1 ++ WTest :: ws2)
               (emit (EFeedback (task_id b)) (emit (EExec b Raised) (set_ie ie' st))) in
  step st st1 /\
  log st1 = EFeedback (task_id b) :: EExec b Raised :: log st /\
  workers st1 = ws1 ++ WTest :: ws2 /\ queue st1 = queue st /\
  forall q st2, queue st = Some q -> steps st1 st2 ->
    (exists new, log st2 = new ++ log st1) /\
    (forall new, log st2 = new ++ log st1 -> In EExit new ->
       exists t, rev (execs new) = q ++ t).
Proof.
  intros Hr Hws Hrun Hd st1.
  assert (Hs : step st st1)
    by (apply (step_worker st ws1 (WExec b) ws2 WTest); [exact Hws | apply ws_exec_raise; assumption]).
  do 4 (split; [first [exact Hs | reflexivity] |]).
  intros q st2 Hq H12.
  pose proof (steps_snoc _ _ _ Hr Hs) as Hr1.
  pose proof (inv_reachable _ Hr1) as I1.
  pose proof (inv_reachable _ (steps_app _ _ _ Hr1 H12)) as I2.
  destruct (loop_facts st1 ws1 WTest ws2 I1 eq_refl eq_refl)
    as [_ [_ [_ [Hx1 [q1 [Hq1 Hp1]]]]]].
  change (queue st1) with (queue st) in Hq1. rewrite Hq in Hq1.
  injection Hq1 as <-. simpl in Hp1.
  split; [exact (steps_log _ _ H12)|].
  intros new Hl Hex.
  destruct (seg_of_extension st2 new (log st1) I2 Hl)
    as [[_ Hc] | [n2 [n1 [-> [[[Hx He] | [_ He]] _]]]]].
  - assert (Hx2 : has_exit (cur_seg (log st2)) = true)
      by (rewrite Hc, has_exit_app, (in_exit_has_exit _ Hex); reflexivity).
    destruct (inv_exit _ I2 Hx2) as [_ He]. rewrite Hc in He.
    exact (drained_before_exit _ _ _ Hx1 (in_exit_has_exit _ Hex) Hp1 He).
  - rewrite has_exit_app, Hx1, orb_false_r in Hx.
    destruct (drained_before_exit _ _ _ Hx1 Hx Hp1 He) as [t Ht].
    exists (t ++ rev (execs n2)).
    rewrite execs_app. simpl. rewrite rev_app_distr, Ht, app_assoc. reflexivity.
  - rewrite execs_app in He. apply app_eq_nil in He. destruct He as [_ He].
    simpl in He. discriminate.
Qed.

Lemma a_popped_reachable : reachable a_popped.
Proof.
  unfold reachable.
  run_call CallNew. run_cont. run_cont.
  run_call (CallGet "a" 1 0). run_call (CallGet "b" 2 0).
  run_worker (@nil wpc) WTest (@nil wpc) ltac:(apply ws_test_true; reflexivity).
  run_worker (@nil wpc) WGet (@nil wpc) ltac:(eapply ws_get; reflexivity).
  run_worker (@nil wpc) (WExec start_req) (@nil wpc)
    ltac:(apply ws_exec_ok; [apply run_start_ok | vm_compute; discriminate]).
  run_worker (@nil wpc) WTest (@nil wpc) ltac:(apply ws_test_true; reflexivity).
  run_worker (@nil wpc) WGet (@nil wpc) ltac:(eapply ws_get; reflexivity).
  run_end.
Qed.

Lemma a_failed_to_drained : steps a_failed a_drained.
Proof.
  run_call CallClose.
  run_worker (@nil wpc) WTest (@nil wpc) ltac:(apply ws_test_false; reflexivity).
  run_worker (@nil wpc) WTestQ (@nil wpc) ltac:(eapply ws_testq_nonempty; reflexivity).
  run_worker (@nil wpc) WGet (@nil wpc) ltac:(eapply ws_get; reflexivity).
  run_worker (@nil wpc) (WExec req_b) (@nil wpc)
    ltac:(apply ws_exec_ok; [apply run_visit_ok | vm_compute; discriminate]).
  run_worker (@nil wpc) WTest (@nil wpc) ltac:(apply ws_test_false; reflexivity).
  run_worker (@nil wpc) WTestQ (@nil wpc) ltac:(apply ws_testq_empty; reflexivity).
  run_end.
Qed.

(** [a] raises with [b] queued behind it; after [close_browser()] the
    consumer leaves its loop, and [b] has run. *)
Lemma raise_reported_nothing_skipped_witness :
  reachable a_popped /\ workers a_popped = [] ++ WExec req_a :: [] /\
  run_action (act req_a) (ie a_popped) Raised true /\ (0 <= delay req_a)%Q /\
  step a_popped a_failed /\ queue a_popped = Some [req_b] /\
  steps a_failed a_drained /\ log a_drained = [EExit; EExec req_b Ok] ++ log a_failed /\
  exists t, rev (execs [EExit; EExec req_b Ok]) = [req_b] ++ t.
Proof.
  assert (Hd : (0 <= delay req_a)%Q) by (vm_compute; discriminate).
  destruct (raise_reported_nothing_skipped a_popped [] req_a [] true
              a_popped_reachable eq_refl (run_visit_fail "a") Hd)
    as [Hs [_ [_ [_ Hrest]]]].
  destruct (Hrest [req_b] a_drained eq_refl a_failed_to_drained) as [_ Hx].
  split; [exact a_popped_reachable|]. split; [reflexivity|].
  split; [apply run_visit_fail|]. split; [exact Hd|].
  split; [exact Hs|]. split; [reflexivity|].
  split; [exact a_failed_to_drained|]. split; [reflexivity|].
  apply (Hx [EExit; EExec req_b Ok] eq_refl). simpl. left. reflexivity.
Defined.

(** C6 (the code does not do what it documents): [close_browser()] can
    lose queued work. The consumer tests [cls._persist or not
    cls._action_queue.empty()] and leaves its loop on an empty queue after
    [_persist] was cleared; before it runs [cls._action_queue = None], the
    main thread calls [IEManager.get('a', 1)], which puts [a] on the old
    queue object. In the state [race_mid] reached that way, [a] is queued
    and IE has not been released; calling [close_browser()] there and
    letting the consumer finish its teardown releases IE, drops the queue
    and ends the thread, and [a] has never run. *)
Theorem close_discards_queued_request :
  reachable race_mid /\
  queue race_mid = Some [req_a] /\ ~ In ERelease (log race_mid) /\
  step race_mid (client_call CallClose race_mid) /\
  steps (client_call CallClose race_mid) race_fin /\
  In ERelease (log race_fin) /\ ~ In req_a (execs (log race_fin)) /\
  queue race_fin = None /\ Forall (fun pc => pc = WDone) (workers race_fin).
Proof.
  split; [exact race_mid_reachable|].
  split; [reflexivity|].
  split; [simpl; intuition discriminate|].
  split; [apply step_call; reflexivity|].
  split.
  { run_worker (@nil wpc) WReset1 (@nil wpc) ltac:(apply ws_reset1).
    run_worker (@nil wpc) WReset2 (@nil wpc) ltac:(apply ws_reset2).
    run_worker (@nil wpc) WQuit (@nil wpc) ltac:(apply ws_quit).
    run_worker (@nil wpc) WClear (@nil wpc) ltac:(apply ws_clear).
    run_end. }
  split; [simpl; left; reflexivity|].
  split; [simpl; intros [H | []]; discriminate|].
  split; [reflexivity|].
  repeat constructor.
Qed.

(** C9, counterexample: after a full teardown [IEManager.get] does not
    re-create anything: [cls._action_queue] is [None] and [put] raises
    [AttributeError] in the caller. *)
Lemma get_after_teardown_raises :
  reachable teardown_done /\ queue teardown_done = None /\
  client_call (CallGet "b" 2 0) teardown_done =
    emit (ERaise AttributeError) teardown_done.
Proof.
  split; [exact teardown_done_reachable|]. split; reflexivity.
Qed.

(** No step but [IEManager()] (directly, or from [IEBrowser.__init__])
    sets [cls._action_queue] once it is [None]: [get] raises, a consumer
    thread that finds it [None] dies, and the rest of [__new__] raises on
    [put]. *)
Lemma queue_none_step st st' :
  step st st' -> queue st = None -> queue st' = None \/ st' = new_manager st.
Proof.
  intros Hs Hq. destruct Hs as [c st Hc | st st' Hc | st ws1 pc ws2 pc' st' Hws Hw].
  - destruct c as [| site tid d | | platform config]; simpl.
    + right. reflexivity.
    + left. unfold get. rewrite Hq. exact Hq.
    + left. exact Hq.
    + unfold iebrowser_init, browser_init.
      destruct (negb (String.eqb platform "Windows")); [left; exact Hq|].
      destruct (lookup "close_browser" config); [right; reflexivity | left; exact Hq].
  - left. unfold client_cont in Hc.
    destruct (client st); [discriminate | |]; [injection Hc as <-; exact Hq|].
    rewrite Hq in Hc. injection Hc as <-. exact Hq.
  - left. simpl. inversion Hw; subst; simpl; try congruence.
Qed.

(** C9, amended: [IEManager.get] appends the request to the queue and
    returns, without error, while the executor exists; after a teardown
    ([cls._action_queue] is [None]) it raises [AttributeError] in the
    caller and changes nothing else. From there, no step but a new
    [IEManager()] call (directly, or by building another [IEBrowser] task)
    brings the queue back. In every generation of the executor, a request
    that was run and is not the start action was run after the start
    action. And from any state where the queue is [None] and the client is
    not inside [__new__], [IEManager()] followed by [get] leads to a run in
    which the new consumer runs the start action and then the new
    request. *)
Theorem get_contract :
  (forall site tid d st q, queue st = Some q ->
     client_call (CallGet site tid d) st =
       emit (EPut (mkRequest (VisitSite site) tid d))
         (set_queue (Some (q ++ [mkRequest (VisitSite site) tid d])) st)) /\
  (forall site tid d st, queue st = None ->
     client_call (CallGet site tid d) st = emit (ERaise AttributeError) st) /\
  (forall st st', step st st' -> queue st = None -> queue st' <> None ->
     st' = new_manager st) /\
  (forall st, reachable st -> forall s r, In s (segments (log st)) ->
     In r (execs s) -> act r <> StartIE ->
     exists pre post, rev (execs s) = start_req :: pre ++ r :: post) /\
  (forall st site tid d, queue st = None -> client st = CIdle ->
     step st (client_call CallNew st) /\
     exists st2 st3, steps (client_call CallNew st) st2 /\
       queue st2 = Some [start_req] /\ client st2 = CIdle /\
       step st2 (client_call (CallGet site tid d) st2) /\
       steps (client_call (CallGet site tid d) st2) st3 /\
       rev (execs (cur_seg (log st3))) = [start_req; mkRequest (VisitSite site) tid d]).
Proof.
  split; [intros site tid d st q Hq; simpl; unfold get; rewrite Hq; reflexivity|].
  split; [intros site tid d st Hq; simpl; unfold get; rewrite Hq; reflexivity|].
  split.
  { intros st st' Hs Hq Hq'.
    destruct (queue_none_step st st' Hs Hq); [contradiction | assumption]. }
  split.
  { intros st Hr s r Hs Hin Hact.
    pose proof (inv_reachable _ Hr) as I.
    assert (Hf : fifo_seg s).
    { destruct Hs as [<- | Hs]; [exact (cur_fifo _ I)|].
      exact (closed_fifo _ (proj1 (Forall_forall _ _) (inv_old _ I) _ Hs)). }
    destruct Hf as [[rest Hp] Hst]. rewrite Hp in Hst.
    apply in_rev in Hin.
    destruct (rev (execs s)) as [|x t]; [destruct Hin|].
    simpl in Hst. subst x.
    destruct Hin as [<- | Hin]; [destruct Hact; reflexivity|].
    destruct (in_split _ _ Hin) as [pre [post ->]]. exists pre, post. reflexivity. }
  intros [q p i c ws l] site tid d Hq Hc. simpl in Hq, Hc. subst q c.
  split; [apply step_call; reflexivity|].
  destruct (Qlt_le_dec d 0) as [Hd | Hd]; destruct p;
    eexists; eexists;
    (split; [run_cont; run_cont; apply steps_refl|]);
    (split; [reflexivity|]); (split; [reflexivity|]);
    (split; [apply step_call; reflexivity|]);
    split.
  - run_worker ws WTest (@nil wpc) ltac:(apply ws_test_true; reflexivity).
    run_worker ws WGet (@nil wpc) ltac:(eapply ws_get; reflexivity).
    run_worker ws (WExec start_req) (@nil wpc)
      ltac:(apply ws_exec_ok; [apply run_start_ok | vm_compute; discriminate]).
    run_worker ws WTest (@nil wpc) ltac:(apply ws_test_true; reflexivity).
    run_worker ws WGet (@nil wpc) ltac:(eapply ws_get; reflexivity).
    run_worker ws (WExec (mkRequest (VisitSite site) tid d)) (@nil wpc)
      ltac:(apply ws_exec_ok_sleep_raise; [apply run_visit_ok | exact Hd]).
    apply steps_refl.
  - reflexivity.
  - run_worker ws WTest (@nil wpc) ltac:(apply ws_test_false; reflexivity).
    run_worker ws WTestQ (@nil wpc) ltac:(eapply ws_testq_nonempty; reflexivity).
    run_worker ws WGet (@nil wpc) ltac:(eapply ws_get; reflexivity).
    run_worker ws (WExec start_req) (@nil wpc)
      ltac:(apply ws_exec_ok; [apply run_start_ok | vm_compute; discriminate]).
    run_worker ws WTest (@nil wpc) ltac:(apply ws_test_false; reflexivity).
    run_worker ws WTestQ (@nil wpc) ltac:(eapply ws_testq_nonempty; reflexivity).
    run_worker ws WGet (@nil wpc) ltac:(eapply ws_get; reflexivity).
    run_worker ws (WExec (mkRequest (VisitSite site) tid d)) (@nil wpc)
      ltac:(apply ws_exec_ok_sleep_raise; [apply run_visit_ok | exact Hd]).
    apply steps_refl.
  - reflexivity.
  - run_worker ws WTest (@nil wpc) ltac:(apply ws_test_true; reflexivity).
    run_worker ws WGet (@nil wpc) ltac:(eapply ws_get; reflexivity).
    run_worker ws (WExec start_req) (@nil wpc)
      ltac:(apply ws_exec_ok; [apply run_start_ok | vm_compute; discriminate]).
    run_worker ws WTest (@nil wpc) ltac:(apply ws_test_true; reflexivity).
    run_worker ws WGet (@nil wpc) ltac:(eapply ws_get; reflexivity).
    run_worker ws (WExec (mkRequest (VisitSite site) tid d)) (@nil wpc)
      ltac:(apply ws_exec_ok; [apply run_visit_ok | exact Hd]).
    apply steps_refl.
  - reflexivity.
  - run_worker ws WTest (@nil wpc) ltac:(apply ws_test_false; reflexivity).
    run_worker ws WTestQ (@nil wpc) ltac:(eapply ws_testq_nonempty; reflexivity).
    run_worker ws WGet (@nil wpc) ltac:(eapply ws_get; reflexivity).
    run_worker ws (WExec start_req) (@nil wpc)
      ltac:(apply ws_exec_ok; [apply run_start_ok | vm_compute; discriminate]).
    run_worker ws WTest (@nil wpc) ltac:(apply ws_test_false; reflexivity).
    run_worker ws WTestQ (@nil wpc) ltac:(eapply ws_testq_nonempty; reflexivity).
    run_worker ws WGet (@nil wpc) ltac:(eapply ws_get; reflexivity).
    run_worker ws (WExec (mkRequest (VisitSite site) tid d)) (@nil wpc)
      ltac:(apply ws_exec_ok; [apply run_visit_ok | exact Hd]).
    apply steps_refl.
  - reflexivity.
Qed.

Lemma get_contract_witness :
  queue teardown_done = None /\ client teardown_done = CIdle /\
  exists st2 st3, steps (client_call CallNew teardown_done) st2 /\
    queue st2 = Some [start_req] /\ client st2 = CIdle /\
    steps (client_call (CallGet "b"%string 2 0) st2) st3 /\
    rev (execs (cur_seg (log st3))) = [start_req; req_b].
Proof.
  split; [reflexivity|]. split; [reflexivity|].
  destruct (proj2 (proj2 (proj2 (proj2 get_contract))) teardown_done "b"%string 2%Z 0%Q
              eq_refl eq_refl) as [_ [st2 [st3 [H1 [H2 [H3 [_ [H4 H5]]]]]]]].
  exists st2, st3. repeat split; assumption.
Defined.

(** C10: building an [IEBrowser] task on a platform other than Windows
    raises [OSError('This task is only compatible with Windows.')] before
    anything else: the shared [IEManager] state (queue, flags, threads)
    is unchanged, no thread is started and nothing is queued. *)
Theorem iebrowser_non_windows platform config st :
  platform <> "Windows"%string ->
  client_call (CallConstruct platform config) st =
    emit (ERaise (OSError "This task is only compatible with Windows.")) st /\
  queue (client_call (CallConstruct platform config) st) = queue st /\
  persist (client_call (CallConstruct platform config) st) = persist st /\
  ie (client_call (CallConstruct platform config) st) = ie st /\
  client (client_call (CallConstruct platform config) st) = client st /\
  workers (client_call (CallConstruct platform config) st) = workers st /\
  puts (log (client_call (CallConstruct platform config) st)) = puts (log st).
Proof.
  intros Hp.
  assert (E : client_call (CallConstruct platform config) st =
                emit (ERaise (OSError "This task is only compatible with Windows.")) st).
  { simpl. unfold iebrowser_init.
    destruct (String.eqb platform "Windows") eqn:Hw.
    - apply String.eqb_eq in Hw. contradiction.
    - reflexivity. }
  rewrite E. repeat split; reflexivity.
Qed.

Lemma iebrowser_non_windows_witness :
  "Linux"%string <> "Windows"%string /\
  client_call (CallConstruct "Linux" []) init =
    emit (ERaise (OSError "This task is only compatible with Windows.")) init /\
  queue (client_call (CallConstruct "Linux" []) init) = queue init /\
  persist (client_call (CallConstruct "Linux" []) init) = persist init /\
  ie (client_call (CallConstruct "Linux" []) init) = ie init /\
  client (client_call (CallConstruct "Linux" []) init) = client init /\
  workers (client_call (CallConstruct "Linux" []) init) = workers init /\
  puts (log (client_call (CallConstruct "Linux" []) init)) = puts (log init).
Proof.
  split; [discriminate|].
  apply iebrowser_non_windows. discriminate.
Defined.

(** Induction over the runs from the initial state, with the invariant
    at hand. *)
Lemma reach_ind (P : state -> Prop) :
  P init -> (forall st st', Inv st -> P st -> step st st' -> P st') ->
  forall st, reachable st -> P st.
Proof.
  intros H0 Hs st Hr. unfold reachable in Hr.
  assert (G : forall a b, steps a b -> Inv a -> P a -> P b).
  { induction 1 as [a | a b c Hab _ IH]; intros Ia Pa; [exact Pa|].
    apply IH; [exact (inv_step _ _ Ia Hab) | exact (Hs _ _ Ia Pa Hab)]. }
  exact (G _ _ Hr inv_init H0).
Qed.

(** The events one step adds to the log. *)
Definition shape_ok (n : list event) : Prop :=
  n = [] \/ n = [EFresh] \/ (exists r, n = [EPut r]) \/ (exists e, n = [ERaise e]) \/
  n = [EExit] \/ (exists r, n = [EExec r Ok]) \/
  (exists r, n = [EFeedback (task_id r); EExec r Raised]) \/ n = [ERelease] \/
  (exists r, n = [ESleepRaised; EExec r Ok]) \/
  (exists r, n = [ESleepRaised; EFeedback (task_id r); EExec r Raised]).

Ltac log_shape :=
  unfold emit, set_queue, set_client, set_workers, set_persist, set_ie; cbn [log];
  first
  [ exists []; split; [reflexivity | left; reflexivity]
  | lazymatch goal with
    | |- exists n, ?e1 :: ?e2 :: ?e3 :: ?l = n ++ ?l /\ _ => exists [e1; e2; e3]
    | |- exists n, ?e1 :: ?e2 :: ?l = n ++ ?l /\ _ => exists [e1; e2]
    | |- exists n, ?e :: ?l = n ++ ?l /\ _ => exists [e]
    end; split; [reflexivity | unfold shape_ok; eauto 20] ].

Lemma step_shape st st' :
  Inv st -> step st st' -> exists n, log st' = n ++ log st /\ shape_ok n.
Proof.
  intros I Hs. destruct Hs as [c st Hc | st st' Hc | st ws1 pc ws2 pc' st' Hws Hw].
  - destruct c as [| site tid d | | platform config]; simpl.
    + unfold new_manager. destruct (queue st); log_shape.
    + unfold get. destruct (queue st); log_shape.
    + unfold close_browser. log_shape.
    + unfold iebrowser_init. destruct (negb _); [log_shape|].
      simpl. destruct (lookup _ config); [|log_shape].
      unfold new_manager. destruct (queue st); log_shape.
  - unfold client_cont in Hc. destruct (client st); [discriminate | |].
    + injection Hc as <-. log_shape.
    + destruct (queue st); injection Hc as <-; log_shape.
  - revert I Hws. destruct Hw; intros I Hws; try log_shape.
    + exfalso. destruct (loop_facts _ _ _ _ I Hws eq_refl) as [_ [_ [_ [_ [q [Hq _]]]]]].
      congruence.
    + exfalso. destruct (loop_facts _ _ _ _ I Hws eq_refl) as [_ [_ [_ [_ [q [Hq _]]]]]].
      congruence.
Qed.

Lemma feedbacks_app l1 l2 : feedbacks (l1 ++ l2) = feedbacks l1 ++ feedbacks l2.
Proof. induction l1 as [|[] l1 IH]; simpl; rewrite ?IH; reflexivity. Qed.

Lemma raised_ids_app l1 l2 : raised_ids (l1 ++ l2) = raised_ids l1 ++ raised_ids l2.
Proof.
  induction l1 as [|e l1 IH]; [reflexivity|].
  destruct e as [| | | r [] | | | | |]; simpl; rewrite ?IH; reflexivity.
Qed.

Lemma clobber_fin_reachable : reachable clobber_fin.
Proof.
  eapply steps_app; [exact start_popped_reachable|].
  eapply steps_app; [exact start_popped_to_exit|].
  run_worker (@nil wpc) WReset1 (@nil wpc) ltac:(apply ws_reset1).
  run_worker (@nil wpc) WReset2 (@nil wpc) ltac:(apply ws_reset2).
  run_call CallNew. run_cont. run_cont.
  run_worker [WQuit] WTest (@nil wpc) ltac:(apply ws_test_true; reflexivity).
  run_worker [WQuit] WGet (@nil wpc) ltac:(eapply ws_get; reflexivity).
  run_worker [WQuit] (WExec start_req) (@nil wpc)
    ltac:(apply ws_exec_ok; [apply run_start_ok | vm_compute; discriminate]).
  run_worker (@nil wpc) WQuit [WTest] ltac:(apply ws_quit).
  run_worker (@nil wpc) WClear [WTest] ltac:(apply ws_clear).
  run_call (CallGet "b" 2 0).
  run_worker [WDone] WTest (@nil wpc) ltac:(apply ws_test_true; reflexivity).
  run_worker [WDone] WGet (@nil wpc) ltac:(eapply ws_get; reflexivity).
  run_worker [WDone] (WExec req_b) (@nil wpc)
    ltac:(apply ws_exec_raise; [apply run_visit_none | vm_compute; discriminate]).
  run_end.
Qed.

(** Every failure of an action is reported to [api.add_feedback]
    exactly once, with the task id of the failed action, and nothing else
    is: in every reachable state the feedback calls made so far carry,
    in order, the task ids of the failed runs. *)
Theorem feedback_per_failure st :
  reachable st -> feedbacks (log st) = raised_ids (log st).
Proof.
  revert st. apply (reach_ind (fun st => feedbacks (log st) = raised_ids (log st)));
    [reflexivity|].
  intros st0 st1 I H Hs. destruct (step_shape _ _ I Hs) as [n [Hl Hn]].
  rewrite Hl, feedbacks_app, raised_ids_app, H. f_equal.
  unfold shape_ok in Hn.
  repeat match goal with
  | H : _ \/ _ |- _ => destruct H as [H | H]
  | H : exists _, _ |- _ => destruct H as [? H]
  end; subst; reflexivity.
Qed.

Lemma feedback_per_failure_witness :
  reachable clobber_fin /\ feedbacks (log clobber_fin) = raised_ids (log clobber_fin).
Proof.
  split; [exact clobber_fin_reachable | exact (feedback_per_failure _ clobber_fin_reachable)].
Defined.

Lemma in_execs_app r l1 l2 : In r (execs l2) -> In r (execs (l1 ++ l2)).
Proof. rewrite execs_app. intros H. apply in_or_app. right. exact H. Qed.

(** The consumer thread never finds [cls._action_queue] set to [None]
    inside its loop (which would raise [AttributeError] and kill it):
    only the thread that leaves the loop clears the queue. *)
Theorem consumer_never_sees_none st :
  reachable st -> ~ In EWorkerDied (log st).
Proof.
  revert st. apply (reach_ind (fun st => ~ In EWorkerDied (log st))); [simpl; tauto|].
  intros st0 st1 I H Hs. destruct (step_shape _ _ I Hs) as [n [Hl Hn]].
  rewrite Hl. intros Hin. apply in_app_or in Hin. destruct Hin as [Hin | Hin]; [|exact (H Hin)].
  unfold shape_ok in Hn.
  repeat match goal with
  | H : _ \/ _ |- _ => destruct H as [H | H]
  | H : exists _, _ |- _ => destruct H as [? H]
  end; subst; simpl in Hin; intuition discriminate.
Qed.

Lemma consumer_never_sees_none_witness :
  reachable clobber_fin /\ ~ In EWorkerDied (log clobber_fin).
Proof.
  split; [exact clobber_fin_reachable | exact (consumer_never_sees_none _ clobber_fin_reachable)].
Defined.

(** At most one consumer thread is inside its loop at any time, even
    when [IEManager()] has started several threads over the run. *)
Theorem one_consumer_in_loop st :
  reachable st -> (cnt is_loop (workers st) <= 1)%nat.
Proof.
  intros H. pose proof (inv_own _ (inv_reachable _ H)). pose proof (loop_owner (workers st)).
  lia.
Qed.

Lemma one_consumer_in_loop_witness :
  reachable clobber_fin /\ (cnt is_loop (workers clobber_fin) <= 1)%nat.
Proof.
  split; [exact clobber_fin_reachable | exact (one_consumer_in_loop _ clobber_fin_reachable)].
Defined.

(** While a consumer thread is in its loop, [IEManager.get] never raises:
    it appends the request to the live queue. *)
Theorem get_while_consumer_runs st site tid d :
  reachable st -> cnt is_loop (workers st) <> 0%nat ->
  exists q, queue st = Some q /\
    client_call (CallGet site tid d) st =
      emit (EPut (mkRequest (VisitSite site) tid d))
        (set_queue (Some (q ++ [mkRequest (VisitSite site) tid d])) st).
Proof.
  intros H Hl. pose proof (inv_reachable _ H) as I.
  destruct (queue st) as [q|] eqn:Hq.
  - exists q. split; [reflexivity|]. simpl. unfold get. rewrite Hq. reflexivity.
  - exfalso. destruct (inv_none _ I Hq) as [Ho _].
    pose proof (loop_owner (workers st)). lia.
Qed.

Lemma get_while_consumer_runs_witness :
  reachable start_popped /\ cnt is_loop (workers start_popped) <> 0%nat /\
  exists q, queue start_popped = Some q /\
    client_call (CallGet "b" 2 0) start_popped =
      emit (EPut req_b) (set_queue (Some (q ++ [req_b])) start_popped).
Proof.
  assert (H2 : cnt is_loop (workers start_popped) <> 0%nat) by discriminate.
  split; [exact start_popped_reachable|]. split; [exact H2|].
  exact (get_while_consumer_runs _ "b" 2 0 start_popped_reachable H2).
Defined.

Lemma wstep_frame pc st pc' st' :
  wstep pc st pc' st' ->
  client st' = client st /\ workers st' = workers st /\
  count_fresh (log st') = count_fresh (log st).
Proof. destruct 1; repeat split. Qed.

(** [IEManager.__new__] starts exactly one consumer thread per queue
    object it creates, and no thread otherwise: the threads started so
    far (counting the one [__new__] is about to start) are as many as the
    executors created. *)
Theorem one_thread_per_executor st :
  reachable st ->
  (List.length (workers st) + spawn_bit (client st))%nat = count_fresh (log st).
Proof.
  revert st.
  apply (reach_ind (fun st =>
    (List.length (workers st) + spawn_bit (client st))%nat = count_fresh (log st)));
    [reflexivity|].
  intros st0 st1 _ H Hs.
  destruct Hs as [c st Hc | st st' Hc | st ws1 pc ws2 pc' st' Hws Hw].
  - rewrite Hc in H. unfold count_fresh in *.
    destruct c as [| site tid d | | platform config]; simpl.
    + unfold new_manager. destruct (queue st); simpl; [rewrite Hc|]; simpl in *; lia.
    + unfold get. destruct (queue st); simpl; rewrite Hc; simpl in *; lia.
    + rewrite Hc. simpl in *. lia.
    + unfold iebrowser_init. destruct (negb _); simpl; [rewrite Hc; simpl in *; lia|].
      destruct (lookup _ config); simpl; [|rewrite Hc; simpl in *; lia].
      unfold new_manager. destruct (queue st); simpl; [rewrite Hc|]; simpl in *; lia.
  - unfold client_cont in Hc. destruct (client st) eqn:Ec; [discriminate | |].
    + injection Hc as <-. unfold count_fresh in *. simpl in *.
      rewrite length_app. simpl. lia.
    + destruct (queue st); injection Hc as <-; unfold count_fresh in *; simpl in *;
        try rewrite Ec in H; simpl in H; lia.
  - destruct (wstep_frame _ _ _ _ Hw) as [E1 [E2 E3]].
    change (List.length (ws1 ++ pc' :: ws2) + spawn_bit (client st') =
            count_fresh (log st'))%nat.
    rewrite E1, E3, <- H, Hws, !length_app. reflexivity.
Qed.

Lemma one_thread_per_executor_witness :
  reachable clobber_fin /\
  (List.length (workers clobber_fin) + spawn_bit (client clobber_fin))%nat =
    count_fresh (log clobber_fin).
Proof.
  split; [exact clobber_fin_reachable | exact (one_thread_per_executor _ clobber_fin_reachable)].
Defined.

Lemma client_call_ie c st : ie (client_call c st) = ie st.
Proof.
  destruct c as [| site tid d | | platform config]; simpl.
  - unfold new_manager. destruct (queue st); reflexivity.
  - unfold get. destruct (queue st); reflexivity.
  - reflexivity.
  - unfold iebrowser_init. destruct (negb _); [reflexivity|]. simpl.
    destruct (lookup _ config); [|reflexivity].
    unfold new_manager. destruct (queue st); reflexivity.
Qed.

Lemma ie_started st :
  reachable st -> ie st = true ->
  exists r, In r (execs (log st)) /\ act r = StartIE.
Proof.
  revert st.
  apply (reach_ind (fun st => ie st = true ->
                      exists r, In r (execs (log st)) /\ act r = StartIE));
    [discriminate|].
  intros st0 st1 I H Hs.
  destruct (step_log _ _ Hs) as [n Hn].
  assert (Keep : ie st0 = true -> exists r, In r (execs (log st1)) /\ act r = StartIE).
  { intros Hi. destruct (H Hi) as [r [Hr Ha]]. exists r. split; [|exact Ha].
    rewrite Hn. apply in_execs_app. exact Hr. }
  destruct Hs as [c st Hc | st st' Hc | st ws1 pc ws2 pc' st' Hws Hw].
  - rewrite client_call_ie. exact Keep.
  - unfold client_cont in Hc. destruct (client st); [discriminate | |].
    + injection Hc as <-. exact Keep.
    + destruct (queue st); injection Hc as <-; exact Keep.
  - revert Keep Hn. destruct Hw; intros Keep Hn; cbn [ie set_workers emit set_ie];
      try exact Keep; try discriminate.
    all: intros Hi; subst ie'; inversion H0; subst;
      first [ exact (Keep ltac:(congruence))
            | exists r; split; [simpl; auto | congruence] ].
Qed.

(** [IEManager.status()] reports that IE has not been started in every
    state where no start action has run yet, whatever [Busy] would say. *)
Theorem status_before_start st busy :
  reachable st -> (forall r, In r (execs (log st)) -> act r <> StartIE) ->
  ie_status st busy = "IE has not yet been fully started."%string.
Proof.
  intros H Hn. unfold ie_status.
  destruct (ie st) eqn:Hi; [|reflexivity].
  destruct (ie_started _ H Hi) as [r [Hr Ha]]. exfalso. exact (Hn r Hr Ha).
Qed.

Lemma status_before_start_witness :
  reachable start_popped /\
  (forall r, In r (execs (log start_popped)) -> act r <> StartIE) /\
  ie_status start_popped false = "IE has not yet been fully started."%string.
Proof.
  assert (H2 : forall r, In r (execs (log start_popped)) -> act r <> StartIE)
    by (simpl; intros r []).
  split; [exact start_popped_reachable|]. split; [exact H2|].
  exact (status_before_start _ false start_popped_reachable H2).
Defined.

(** A request put on an executor's queue after its consumer has left the
    loop is never run by that executor: in every generation whose
    consumer has left the loop, the requests run are exactly the ones put
    before it left. *)
Theorem late_requests_never_run st :
  reachable st ->
  Forall (fun s => has_exit s = true -> execs s = puts (before_exit s))
    (segments (log st)).
Proof.
  intros H. pose proof (inv_reachable _ H) as I. constructor.
  - exact (fun Hx => proj2 (inv_exit _ I Hx)).
  - eapply Forall_impl; [|exact (inv_old _ I)].
    intros s [[[_ He] | [Hp He]] _] Hx; [exact He|].
    destruct (puts_before_exit s Hx) as [pre Hpre]. rewrite Hp in Hpre.
    symmetry in Hpre. apply app_eq_nil in Hpre. rewrite He. symmetry. exact (proj2 Hpre).
Qed.

Lemma late_requests_never_run_witness :
  reachable race_mid /\
  Forall (fun s => has_exit s = true -> execs s = puts (before_exit s))
    (segments (log race_mid)).
Proof.
  split; [exact race_mid_reachable | exact (late_requests_never_run _ race_mid_reachable)].
Defined.

(** An old consumer's teardown can break a new executor: after
    [close_browser()] the old consumer leaves its loop and clears the
    queue; [IEManager()] then builds a new executor whose consumer runs
    the start action successfully; the old consumer then runs
    [cls._ie.Quit()] and [cls._ie = None] on the shared class state, and
    the next visit of the new executor raises (reported as feedback for
    task 2), with [_ie] left [None]. *)
Theorem teardown_clobbers_new_executor :
  reachable clobber_fin /\
  cur_seg (log clobber_fin) =
    [EFeedback 2; EExec req_b Raised; EPut req_b; ERelease;
     EExec start_req Ok; EPut start_req] /\
  ie clobber_fin = false.
Proof. split; [exact clobber_fin_reachable | split; reflexivity]. Qed.

(** The executor state after the last consumer has gone while the queue
    is still set: no thread owns the queue and none is about to be
    started. *)
Definition orphaned (st : state) : Prop :=
  queue st <> None /\ cnt is_owner (workers st) = 0%nat /\ client st <> CNewSpawn.

Lemma cnt_owner_zero ws1 pc ws2 :
  cnt is_owner (ws1 ++ pc :: ws2) = 0%nat -> is_owner pc = false.
Proof.
  intros H. destruct (is_owner pc) eqn:E; [|reflexivity].
  exfalso. exact (cnt_pos _ ws1 pc ws2 E H).
Qed.

Ltac orph_fin :=
  unfold orphaned; simpl; repeat split; try congruence; try assumption;
  rewrite ?cnt_app, ?cnt_cons in *; simpl in *; lia.

(** One step from an orphaned state runs nothing and creates no queue. *)
Lemma orphaned_step st st' :
  orphaned st -> step st st' ->
  orphaned st' /\ exists new, log st' = new ++ log st /\ execs new = [] /\
                               ~ In EFresh new.
Proof.
  intros Ho Hs. pose proof Ho as [Hq [Hn Hc]].
  destruct Hs as [c st Hi | st st' Hi | st ws1 pc ws2 pc' st' Hws Hw].
  - case_eq (queue st); [intros q Eq | intros Eq; congruence].
    destruct c as [| site tid d | | platform config]; simpl;
      unfold iebrowser_init, browser_init, new_manager, get, close_browser; rewrite ?Eq.
    + split; [orph_fin|]. exists []. repeat split. intros [].
    + split; [orph_fin|].
      exists [EPut (mkRequest (VisitSite site) tid d)]. repeat split.
      intros [H | []]; discriminate.
    + split; [orph_fin|]. exists []. repeat split. intros [].
    + destruct (negb (String.eqb platform "Windows")).
      * split; [orph_fin|].
        exists [ERaise (OSError "This task is only compatible with Windows.")].
        repeat split. intros [H | []]; discriminate.
      * destruct (lookup "close_browser" config); rewrite ?Eq.
        -- split; [orph_fin|]. exists []. repeat split. intros [].
        -- split; [orph_fin|].
           exists [ERaise (KeyError "close_browser")]. repeat split.
           intros [H | []]; discriminate.
  - unfold client_cont in Hi.
    destruct (client st) eqn:Ec; [discriminate | contradiction |].
    case_eq (queue st); [intros q Eq | intros Eq; congruence].
    rewrite Eq in Hi. injection Hi as <-.
    split; [orph_fin|].
    exists [EPut start_req]. repeat split. intros [H | []]; discriminate.
  - rewrite Hws in Hn. pose proof (cnt_owner_zero _ _ _ Hn) as Hpc.
    inversion Hw; subst; simpl in Hpc; try discriminate.
    + split; [orph_fin|]. exists []. repeat split. intros [].
    + split; [orph_fin|].
      exists [ERelease]. repeat split. intros [H | []]; discriminate.
    + split; [orph_fin|]. exists []. repeat split. intros [].
Qed.

Lemma orphaned_steps st st2 :
  orphaned st -> steps st st2 ->
  orphaned st2 /\ exists new, log st2 = new ++ log st /\ execs new = [] /\
                               ~ In EFresh new.
Proof.
  intros Ho H. induction H as [st | st1 st2 st3 Hs _ IH].
  - split; [exact Ho|]. exists []. repeat split. intros [].
  - destruct (orphaned_step _ _ Ho Hs) as [Ho2 [n1 [Hl1 [He1 Hf1]]]].
    destruct (IH Ho2) as [Ho3 [n2 [Hl2 [He2 Hf2]]]].
    split; [exact Ho3|]. exists (n2 ++ n1).
    rewrite Hl2, Hl1, app_assoc. split; [reflexivity|].
    split; [rewrite execs_app, He2, He1; reflexivity|].
    intros Hin. apply in_app_or in Hin. tauto.
Qed.

(** A negative delay ends the executor for good. When [time.sleep(delay)]
    raises on a negative delay, the [ValueError] is outside the inner
    [try], so the consumer thread ends without its teardown: the queue
    stays set and no thread will ever take from it. From then on nothing
    is run again: [get] keeps queuing without error, [IEManager()] sees a
    queue and builds no new executor, and no new queue is created. *)
Theorem negative_delay_ends_executor st ws1 r ws2 o ie' :
  reachable st -> workers st = ws1 ++ WExec r :: ws2 -> (delay r < 0)%Q ->
  run_action (act r) (ie st) o ie' ->
  let st1 := set_workers (ws1 ++ WDone :: ws2)
               (emit ESleepRaised
                  (match o with
                   | Ok => emit (EExec r Ok) (set_ie ie' st)
                   | Raised => emit (EFeedback (task_id r)) (emit (EExec r Raised) (set_ie ie' st))
                   end)) in
  step st st1 /\
  forall st2, steps st1 st2 ->
    queue st2 <> None /\
    exists new, log st2 = new ++ log st1 /\ execs new = [] /\ ~ In EFresh new.
Proof.
  intros Hr Hws Hd Hrun st1.
  assert (Hs : step st st1).
  { unfold st1. apply (step_worker st ws1 (WExec r) ws2 WDone); [exact Hws|].
    destruct o; [apply ws_exec_ok_sleep_raise | apply ws_exec_raise_sleep_raise]; assumption. }
  split; [exact Hs|].
  pose proof (inv_reachable _ Hr) as I.
  assert (Hown := inv_own _ I). rewrite Hws, cnt_app, cnt_cons in Hown. simpl in Hown.
  assert (Ho : orphaned st1).
  { unfold orphaned, st1. split; [|split].
    - destruct o; simpl; intros Hq.
      all: destruct (inv_none _ I Hq) as [H0 _]; rewrite Hws in H0;
           exact (cnt_pos _ ws1 (WExec r) ws2 eq_refl H0).
    - destruct o; simpl; rewrite cnt_app, cnt_cons; simpl; lia.
    - destruct o; simpl; intros Hc; rewrite Hc in Hown; simpl in Hown; lia. }
  intros st2 H12. destruct (orphaned_steps _ _ Ho H12) as [[Hq _] Hn].
  split; [exact Hq | exact Hn].
Qed.

(** [get('a', 1, -1)] runs [a], then [time.sleep(-1)] ends the consumer;
    a later [get('b', 2)] is queued without error and [IEManager()] does
    nothing, and [b] is never run. *)
Lemma negative_delay_ends_executor_witness :
  let st0 := {| queue := Some []; persist := true; ie := true; client := CIdle;
                workers := [WExec req_neg];
                log := [EExec start_req Ok; EPut req_neg; EPut start_req; EFresh] |} in
  reachable st0 /\ step st0 sleep_dead /\
  steps sleep_dead sleep_dead_later /\ queue sleep_dead_later = Some [req_b] /\
  exists new, log sleep_dead_later = new ++ log sleep_dead /\ execs new = [].
Proof.
  intros st0.
  assert (Hr : reachable st0).
  { unfold reachable.
    run_call CallNew. run_cont. run_cont.
    run_call (CallGet "a" 1 (-1)).
    run_worker (@nil wpc) WTest (@nil wpc) ltac:(apply ws_test_true; reflexivity).
    run_worker (@nil wpc) WGet (@nil wpc) ltac:(eapply ws_get; reflexivity).
    run_worker (@nil wpc) (WExec start_req) (@nil wpc)
      ltac:(apply ws_exec_ok; [apply run_start_ok | vm_compute; discriminate]).
    run_worker (@nil wpc) WTest (@nil wpc) ltac:(apply ws_test_true; reflexivity).
    run_worker (@nil wpc) WGet (@nil wpc) ltac:(eapply ws_get; reflexivity).
    run_end. }
  assert (Hlater : steps sleep_dead sleep_dead_later).
  { run_call (CallGet "b" 2 0). run_call CallNew. run_end. }
  destruct (negative_delay_ends_executor st0 [] req_neg [] Ok true Hr eq_refl
              ltac:(vm_compute; reflexivity) (run_visit_ok "a"))
    as [Hs Hrest].
  destruct (Hrest sleep_dead_later Hlater) as [_ [new [Hl [He _]]]].
  split; [exact Hr|]. split; [exact Hs|]. split; [exact Hlater|].
  split; [reflexivity|]. exists new. split; [exact Hl | exact He].
Defined.

End IEProofs.
